(** * nodeValuesscan.c: scanning a VALUES list

    A shallow embedding of [src/backend/executor/nodeValuesscan.c]
    (ValuesNext, ExecInitValuesScan, ExecReScanValuesScan) and the
    properties of the cursor, of the expression-state arrays and of the
    rows the node hands out. *)

From Stdlib Require Import ZArith String.
From stdpp Require Import base tactics option list.

Local Open Scope Z_scope.

(** ** Machine integers

    [curr_idx] and [array_len] are C [int]s.  [int32] is the value an
    [int] holds after an arithmetic result is stored in it. *)

Definition INT_MAX : Z := 2147483647.

Definition int32 (z : Z) : Z := (z + 2 ^ 31) mod 2 ^ 32 - 2 ^ 31.

(** ** Fatal outcomes

    The node has no recoverable error path.  The two ways it can stop are
    taking the first cell of an empty list and a failed [Assert]. *)

Inductive FatalError : Type :=
  | NoFirstCell          (* linitial of NIL *)
  | FailedAssertion.     (* Assert(...) does not hold *)

Inductive Result (A : Type) : Type :=
  | OK (a : A)
  | Fatal (e : FatalError).

Arguments OK {A} a.
Arguments Fatal {A} e.

Global Instance Result_ret : MRet Result := fun A a => OK a.

Global Instance Result_bind : MBind Result := fun A B k m =>
  match m with
  | OK a => k a
  | Fatal e => Fatal e
  end.

Definition Assert (b : bool) : Result unit :=
  if b then OK tt else Fatal FailedAssertion.

(** ** Scan direction *)

(** Modelled from the spec: the declaration of ScanDirection (access/sdir.h)
    is not among the sources of this node; the two directions of
    Next(direction: Forward | Backward). *)
Inductive ScanDirection : Type :=
  | BackwardScanDirection
  | ForwardScanDirection.

(** Modelled from the spec: the macro ScanDirectionIsForward (access/sdir.h)
    is not among the sources of this node; true for the Forward direction only. *)
Definition ScanDirectionIsForward (direction : ScanDirection) : bool :=
  match direction with
  | ForwardScanDirection => true
  | BackwardScanDirection => false
  end.

(** ** The expression engine

    Expressions, datums and their evaluation belong to the executor's
    expression engine, which the node only calls.  The node is verified
    against this interface. *)

Class ExprEngine : Type := {
  (** an expression of a VALUES row, before compilation *)
  Expr : Type;
  (** an evaluated value *)
  Datum : Type;
  Datum_inhabited :: Inhabited Datum;
  (** what an evaluation reads besides the expression (parameter values) *)
  ParamEnv : Type;
  (** an element of es_subplanstates *)
  SubPlanState : Type;
  (** does the expression tree reference a SubPlan? *)
  expr_contains_subplan : Expr -> bool;
  (** attlen of the column type the expression produces (-1: varlena) *)
  expr_attlen : Expr -> Z;
  (** value and null flag of an expression *)
  eval_expr : Expr -> ParamEnv -> Datum * bool;
  (** MakeExpandedObjectReadOnly(d, isnull, typlen) of utils/expandeddatum.h *)
  MakeExpandedObjectReadOnly : Datum -> bool -> Z -> Datum
}.

Section ValuesScan.

Context `{engine : ExprEngine}.

(** ** Data *)

(** The plan state an expression state is linked to: NULL ([None]) or the
    ValuesScan node's own [&scanstate->ss.ps]. *)
Inductive PlanStateRef : Type :=
  | ThisPlanState.

(** A compiled expression.  [xs_serial] names the object: every
    compilation allocates a new one. *)
Record ExprState : Type := {
  xs_serial : nat;
  xs_expr : Expr;
  xs_parent : option PlanStateRef
}.

(** A memory context, as the list of the expression states that live in it. *)
Definition MemoryContext : Type := list ExprState.

Record ExprContext : Type := {
  ecxt_per_tuple_memory : MemoryContext;
  ecxt_param_exec_vals : ParamEnv
}.

Record FormData_pg_attribute : Type := {
  attlen : Z
}.

Global Instance FormData_pg_attribute_inhabited : Inhabited FormData_pg_attribute :=
  populate {| attlen := 0 |}.

Record TupleDesc : Type := {
  natts : Z;
  attrs : list FormData_pg_attribute
}.

Record TupleTableSlot : Type := {
  tts_isempty : bool;
  tts_tupleDescriptor : TupleDesc;
  tts_nvalid : Z;
  tts_values : list Datum;
  tts_isnull : list bool
}.

Record EState : Type := {
  es_direction : ScanDirection;
  es_subplanstates : list SubPlanState;
  es_param_exec_vals : ParamEnv;
  (** the per-query memory context: objects that live until the query ends *)
  es_query_cxt : MemoryContext;
  (** allocation frontier: the serial number of the next object *)
  es_next_serial : nat
}.

Record PlanState : Type := {
  state : EState;
  ps_ResultTupleSlot : TupleTableSlot;
  ps_ExprContext : ExprContext
}.

Record ScanState : Type := {
  ps : PlanState;
  ss_ScanTupleSlot : TupleTableSlot
}.

Record ValuesScanState : Type := {
  ss : ScanState;
  rowcontext : ExprContext;
  exprlists : list (list Expr);
  array_len : Z;
  curr_idx : Z;
  exprstatelists : list (list ExprState)
}.

(** The plan node: the list of expression sublists. *)
Record ValuesScan : Type := {
  values_lists : list (list Expr)
}.

(** *** Field updates *)

Definition set_es_direction (d : ScanDirection) (e : EState) : EState :=
  {| es_direction := d;
     es_subplanstates := es_subplanstates e;
     es_param_exec_vals := es_param_exec_vals e;
     es_query_cxt := es_query_cxt e;
     es_next_serial := es_next_serial e |}.

Definition set_state (e : EState) (p : PlanState) : PlanState :=
  {| state := e;
     ps_ResultTupleSlot := ps_ResultTupleSlot p;
     ps_ExprContext := ps_ExprContext p |}.

Definition set_ps_ResultTupleSlot (s : TupleTableSlot) (p : PlanState) : PlanState :=
  {| state := state p;
     ps_ResultTupleSlot := s;
     ps_ExprContext := ps_ExprContext p |}.

Definition set_ps (p : PlanState) (s : ScanState) : ScanState :=
  {| ps := p; ss_ScanTupleSlot := ss_ScanTupleSlot s |}.

Definition set_ss_ScanTupleSlot (t : TupleTableSlot) (s : ScanState) : ScanState :=
  {| ps := ps s; ss_ScanTupleSlot := t |}.

Definition set_ss (s : ScanState) (n : ValuesScanState) : ValuesScanState :=
  {| ss := s;
     rowcontext := rowcontext n;
     exprlists := exprlists n;
     array_len := array_len n;
     curr_idx := curr_idx n;
     exprstatelists := exprstatelists n |}.

Definition set_rowcontext (c : ExprContext) (n : ValuesScanState) : ValuesScanState :=
  {| ss := ss n;
     rowcontext := c;
     exprlists := exprlists n;
     array_len := array_len n;
     curr_idx := curr_idx n;
     exprstatelists := exprstatelists n |}.

Definition set_exprlists (l : list (list Expr)) (n : ValuesScanState) : ValuesScanState :=
  {| ss := ss n;
     rowcontext := rowcontext n;
     exprlists := l;
     array_len := array_len n;
     curr_idx := curr_idx n;
     exprstatelists := exprstatelists n |}.

Definition set_curr_idx (i : Z) (n : ValuesScanState) : ValuesScanState :=
  {| ss := ss n;
     rowcontext := rowcontext n;
     exprlists := exprlists n;
     array_len := array_len n;
     curr_idx := i;
     exprstatelists := exprstatelists n |}.

Definition set_exprstatelists (l : list (list ExprState)) (n : ValuesScanState) : ValuesScanState :=
  {| ss := ss n;
     rowcontext := rowcontext n;
     exprlists := exprlists n;
     array_len := array_len n;
     curr_idx := curr_idx n;
     exprstatelists := l |}.

(** [node->ss.ps.state = e] and [node->ss.ss_ScanTupleSlot = t] *)
Definition set_estate (e : EState) (n : ValuesScanState) : ValuesScanState :=
  set_ss (set_ps (set_state e (ps (ss n))) (ss n)) n.

Definition set_scan_slot (t : TupleTableSlot) (n : ValuesScanState) : ValuesScanState :=
  set_ss (set_ss_ScanTupleSlot t (ss n)) n.

(** ** Collaborators of the node *)

(** Modelled from the spec: list_length (nodes/pg_list.h) is not among the
    sources of this node; the number of cells of a list, N for the row table. *)
Definition list_length {A : Type} (l : list A) : Z := Z.of_nat (length l).

(** Modelled from the spec: linitial (nodes/pg_list.h) is not among the
    sources of this node; the first cell of a list.  A row table without a
    first row has no cell to take, which is the fatal precondition failure of
    scenario C (the schema cannot be derived). *)
Definition linitial {A : Type} (l : list A) : Result A :=
  match l with
  | [] => Fatal NoFirstCell
  | x :: _ => OK x
  end.

(** Modelled from the spec: contain_subplans (optimizer/clauses.c) is not
    among the sources of this node; whether the row contains any expression
    that references a nested sub-query plan. *)
Definition contain_subplans (exprs : list Expr) : bool :=
  existsb expr_contains_subplan exprs.

(** Modelled from the spec: ExecInitExprList (executor/execExpr.c) is not
    among the sources of this node; compiles each expression of the row, in
    order, into a new expression state linked to [parent]. *)
Fixpoint ExecInitExprList (nodes : list Expr) (parent : option PlanStateRef)
    (serial : nat) : list ExprState :=
  match nodes with
  | [] => []
  | e :: rest =>
      {| xs_serial := serial; xs_expr := e; xs_parent := parent |}
        :: ExecInitExprList rest parent (S serial)
  end.

(** The objects [objs] have been allocated: the frontier moves past them. *)
Definition allocated (objs : list ExprState) (e : EState) : EState :=
  {| es_direction := es_direction e;
     es_subplanstates := es_subplanstates e;
     es_param_exec_vals := es_param_exec_vals e;
     es_query_cxt := es_query_cxt e;
     es_next_serial := (es_next_serial e + length objs)%nat |}.

(** Allocation while the per-query context is current. *)
Definition alloc_in_query_cxt (objs : list ExprState) (e : EState) : EState :=
  {| es_direction := es_direction e;
     es_subplanstates := es_subplanstates e;
     es_param_exec_vals := es_param_exec_vals e;
     es_query_cxt := es_query_cxt e ++ objs;
     es_next_serial := (es_next_serial e + length objs)%nat |}.

(** Allocation while [econtext->ecxt_per_tuple_memory] is current. *)
Definition alloc_in_per_tuple_memory (objs : list ExprState)
    (econtext : ExprContext) : ExprContext :=
  {| ecxt_per_tuple_memory := ecxt_per_tuple_memory econtext ++ objs;
     ecxt_param_exec_vals := ecxt_param_exec_vals econtext |}.

(** Modelled from the spec: ExecEvalExpr (executor/executor.h) is not among
    the sources of this node; given an expression and an evaluation scope it
    returns a value and a null flag. *)
Definition ExecEvalExpr (estate : ExprState) (econtext : ExprContext)
    : Datum * bool :=
  eval_expr (xs_expr estate) (ecxt_param_exec_vals econtext).

(** Modelled from the spec: CreateExprContext, reached through
    ExecAssignExprContext (executor/execUtils.c), is not among the sources of
    this node; a new, empty evaluation scope of the executor state. *)
Definition CreateExprContext (estate : EState) : ExprContext :=
  {| ecxt_per_tuple_memory := [];
     ecxt_param_exec_vals := es_param_exec_vals estate |}.

(** Modelled from the spec: ReScanExprContext (executor/execUtils.c) is not
    among the sources of this node; resets the scope, discarding the prior
    row's transient allocations. *)
Definition ReScanExprContext (econtext : ExprContext) : ExprContext :=
  {| ecxt_per_tuple_memory := [];
     ecxt_param_exec_vals := ecxt_param_exec_vals econtext |}.

(** Modelled from the spec: ExecTypeFromExprList (executor/execTuples.c) is
    not among the sources of this node; the output schema (column count and
    per-column type) derived from a row's expression list. *)
Definition ExecTypeFromExprList (exprList : list Expr) : TupleDesc :=
  {| natts := list_length exprList;
     attrs := map (fun e => {| attlen := expr_attlen e |}) exprList |}.

(** Modelled from the spec: MakeTupleTableSlot, reached through
    ExecInitResultTupleSlot and ExecInitScanTupleSlot
    (executor/execTuples.c), is not among the sources of this node; a new,
    cleared row container that has no columns yet. *)
Definition MakeTupleTableSlot : TupleTableSlot :=
  {| tts_isempty := true;
     tts_tupleDescriptor := {| natts := 0; attrs := [] |};
     tts_nvalid := 0;
     tts_values := [];
     tts_isnull := [] |}.

(** Modelled from the spec: ExecSetSlotDescriptor, reached through
    ExecAssignScanType (executor/execTuples.c), is not among the sources of
    this node; sizes the value and null-flag vectors of the row container to
    the column count C. *)
Definition ExecSetSlotDescriptor (slot : TupleTableSlot) (tupdesc : TupleDesc)
    : TupleTableSlot :=
  {| tts_isempty := true;
     tts_tupleDescriptor := tupdesc;
     tts_nvalid := 0;
     tts_values := replicate (Z.to_nat (natts tupdesc)) inhabitant;
     tts_isnull := replicate (Z.to_nat (natts tupdesc)) false |}.

(** Modelled from the spec: ExecClearTuple (executor/execTuples.c) is not
    among the sources of this node; clears the row container, which then is
    the end-of-data marker. *)
Definition ExecClearTuple (slot : TupleTableSlot) : TupleTableSlot :=
  {| tts_isempty := true;
     tts_tupleDescriptor := tts_tupleDescriptor slot;
     tts_nvalid := 0;
     tts_values := tts_values slot;
     tts_isnull := tts_isnull slot |}.

(** Modelled from the spec: ExecStoreVirtualTuple (executor/execTuples.c) is
    not among the sources of this node; marks the value and null-flag vectors
    of the row container as a materialized row. *)
Definition ExecStoreVirtualTuple (slot : TupleTableSlot) : TupleTableSlot :=
  {| tts_isempty := false;
     tts_tupleDescriptor := tts_tupleDescriptor slot;
     tts_nvalid := natts (tts_tupleDescriptor slot);
     tts_values := tts_values slot;
     tts_isnull := tts_isnull slot |}.

(** Modelled from the spec: ExecScanReScan (executor/execScan.c) is not
    among the sources of this node; the scan driver's part of a rescan, which
    leaves the operator's own state alone (ReScan resets position only). *)
Definition ExecScanReScan (node : ScanState) : ScanState := node.

(** What a caller reads from a returned slot: no row when the slot is
    cleared (TupIsNull), otherwise a value and a null flag per column. *)
Definition fetch_row (slot : TupleTableSlot) : option (list (Datum * bool)) :=
  if tts_isempty slot then None
  else Some (zip (take (Z.to_nat (tts_nvalid slot)) (tts_values slot))
                 (take (Z.to_nat (tts_nvalid slot)) (tts_isnull slot))).

(** ** ValuesNext *)

(** The [foreach(lc, exprstatelist)] loop of ValuesNext: column [resind] of
    the value and null-flag arrays is written for each expression state. *)
Fixpoint ValuesNext_foreach (exprstatelist : list ExprState)
    (econtext : ExprContext) (att : list FormData_pg_attribute)
    (resind : nat) (values : list Datum) (isnull : list bool)
    : list Datum * list bool :=
  match exprstatelist with
  | [] => (values, isnull)
  | estate :: lc =>
      let r := ExecEvalExpr estate econtext in
      let isnull := <[resind := r.2]> isnull in
      let values := <[resind := r.1]> values in
      let values :=
        <[resind := MakeExpandedObjectReadOnly (values !!! resind)
                      (isnull !!! resind) (attlen (att !!! resind))]> values in
      ValuesNext_foreach lc econtext att (S resind) values isnull
  end.

Definition ValuesNext (node : ValuesScanState) : Result ValuesScanState :=
  let estate := state (ps (ss node)) in
  let direction := es_direction estate in
  let slot := ss_ScanTupleSlot (ss node) in
  let econtext := rowcontext node in
  (* Get the next tuple. *)
  let node :=
    if ScanDirectionIsForward direction then
      if bool_decide (curr_idx node < array_len node)
      then set_curr_idx (int32 (curr_idx node + 1)) node
      else node
    else
      if bool_decide (curr_idx node >= 0)
      then set_curr_idx (int32 (curr_idx node - 1)) node
      else node in
  (* Always clear the result slot. *)
  let slot := ExecClearTuple slot in
  let curr_idx := curr_idx node in
  if bool_decide (curr_idx >= 0) && bool_decide (curr_idx < array_len node) then
    let exprlist := exprlists node !!! Z.to_nat curr_idx in
    let exprstatelist := exprstatelists node !!! Z.to_nat curr_idx in
    (* Get rid of any prior cycle's leftovers. *)
    let econtext := ReScanExprContext econtext in
    (* Unless the eval state of this row exists, build it in per-tuple memory. *)
    let '(exprstatelist, econtext, estate) :=
      match exprstatelist with
      | [] =>
          let built := ExecInitExprList exprlist None (es_next_serial estate) in
          (built, alloc_in_per_tuple_memory built econtext,
           allocated built estate)
      | _ :: _ => (exprstatelist, econtext, estate)
      end in
    (* parser should have checked all sublists are the same length *)
    _ ← Assert (bool_decide (list_length exprstatelist
                             = natts (tts_tupleDescriptor slot)));
    let att := attrs (tts_tupleDescriptor slot) in
    let '(values, isnull) :=
      ValuesNext_foreach exprstatelist econtext att 0
        (tts_values slot) (tts_isnull slot) in
    let slot :=
      ExecStoreVirtualTuple
        {| tts_isempty := tts_isempty slot;
           tts_tupleDescriptor := tts_tupleDescriptor slot;
           tts_nvalid := tts_nvalid slot;
           tts_values := values;
           tts_isnull := isnull |} in
    OK (set_scan_slot slot (set_rowcontext econtext (set_estate estate node)))
  else
    OK (set_scan_slot slot node).

(** The two halves of ValuesNext, named so that each can be reasoned about
    on its own: the cursor move, and the work done for an in-range row. *)
Definition ValuesNext_advance (node : ValuesScanState) : ValuesScanState :=
  if ScanDirectionIsForward (es_direction (state (ps (ss node)))) then
    if bool_decide (curr_idx node < array_len node)
    then set_curr_idx (int32 (curr_idx node + 1)) node
    else node
  else
    if bool_decide (curr_idx node >= 0)
    then set_curr_idx (int32 (curr_idx node - 1)) node
    else node.

Definition ValuesNext_row (node : ValuesScanState) (slot : TupleTableSlot)
    (econtext : ExprContext) (estate : EState) : Result ValuesScanState :=
  let exprlist := exprlists node !!! Z.to_nat (curr_idx node) in
  let exprstatelist := exprstatelists node !!! Z.to_nat (curr_idx node) in
  let econtext := ReScanExprContext econtext in
  let '(exprstatelist, econtext, estate) :=
    match exprstatelist with
    | [] =>
        let built := ExecInitExprList exprlist None (es_next_serial estate) in
        (built, alloc_in_per_tuple_memory built econtext,
         allocated built estate)
    | _ :: _ => (exprstatelist, econtext, estate)
    end in
  _ ← Assert (bool_decide (list_length exprstatelist
                           = natts (tts_tupleDescriptor slot)));
  let att := attrs (tts_tupleDescriptor slot) in
  let '(values, isnull) :=
    ValuesNext_foreach exprstatelist econtext att 0
      (tts_values slot) (tts_isnull slot) in
  let slot :=
    ExecStoreVirtualTuple
      {| tts_isempty := tts_isempty slot;
         tts_tupleDescriptor := tts_tupleDescriptor slot;
         tts_nvalid := tts_nvalid slot;
         tts_values := values;
         tts_isnull := isnull |} in
  OK (set_scan_slot slot (set_rowcontext econtext (set_estate estate node))).

(** ** ExecInitValuesScan *)

(** The [foreach(vtl, node->values_lists)] loop of ExecInitValuesScan. *)
Fixpoint ExecInitValuesScan_foreach (vtl : list (list Expr)) (i : nat)
    (scanstate : ValuesScanState) : ValuesScanState :=
  match vtl with
  | [] => scanstate
  | exprs :: vtl =>
      let estate := state (ps (ss scanstate)) in
      let scanstate :=
        set_exprlists (<[i := exprs]> (exprlists scanstate)) scanstate in
      let scanstate :=
        if bool_decide (es_subplanstates estate <> [])
           && contain_subplans exprs
        then
          let built :=
            ExecInitExprList exprs (Some ThisPlanState) (es_next_serial estate) in
          set_exprstatelists (<[i := built]> (exprstatelists scanstate))
            (set_estate (alloc_in_query_cxt built estate) scanstate)
        else scanstate in
      ExecInitValuesScan_foreach vtl (S i) scanstate
  end.

(** The node has no children, and its qual, result type and projection are
    set up for the scan driver (ExecScan), which reads none of the fields
    below; they are left out. *)
Definition ExecInitValuesScan (node : ValuesScan) (estate : EState)
    (eflags : Z) : Result ValuesScanState :=
  (* Create expression contexts: one per sublist, one for execScan.c. *)
  let rowcontext := CreateExprContext estate in
  let ps_ExprContext := CreateExprContext estate in
  (* tuple table initialization *)
  let resultslot := MakeTupleTableSlot in
  let scanslot := MakeTupleTableSlot in
  (* get info about values list *)
  first ← linitial (values_lists node);
  let tupdesc := ExecTypeFromExprList first in
  let scanslot := ExecSetSlotDescriptor scanslot tupdesc in
  (* Other node-specific setup *)
  let array_len := list_length (values_lists node) in
  let scanstate :=
    {| ss := {| ps := {| state := estate;
                         ps_ResultTupleSlot := resultslot;
                         ps_ExprContext := ps_ExprContext |};
                ss_ScanTupleSlot := scanslot |};
       rowcontext := rowcontext;
       exprlists := replicate (Z.to_nat array_len) [];
       array_len := array_len;
       curr_idx := -1;
       exprstatelists := replicate (Z.to_nat array_len) [] |} in
  OK (ExecInitValuesScan_foreach (values_lists node) 0 scanstate).

(** ** ExecReScanValuesScan *)

Definition ExecReScanValuesScan (node : ValuesScanState) : ValuesScanState :=
  let node :=
    set_ss (set_ps (set_ps_ResultTupleSlot
                      (ExecClearTuple (ps_ResultTupleSlot (ps (ss node))))
                      (ps (ss node))) (ss node)) node in
  let node := set_ss (ExecScanReScan (ss node)) node in
  set_curr_idx (-1) node.

(** ** The node as its caller drives it

    The executor sets [es_direction] and pulls a slot; a rescan resets the
    position. *)

Definition Next (direction : ScanDirection) (node : ValuesScanState)
    : Result ValuesScanState :=
  ValuesNext
    (set_estate (set_es_direction direction (state (ps (ss node)))) node).

Inductive Call : Type :=
  | CallNext (direction : ScanDirection)
  | CallReScan.

(** Run the calls in order and collect what each Next returned. *)
Fixpoint run (calls : list Call) (node : ValuesScanState)
    : Result (list (option (list (Datum * bool))) * ValuesScanState) :=
  match calls with
  | [] => OK ([], node)
  | CallNext direction :: calls =>
      node ← Next direction node;
      r ← run calls node;
      OK (fetch_row (ss_ScanTupleSlot (ss node)) :: r.1, r.2)
  | CallReScan :: calls =>
      run calls (ExecReScanValuesScan node)
  end.

(** What the calls returned, without the final state. *)
Definition outputs_of (r : Result (list (option (list (Datum * bool)))
                                   * ValuesScanState))
    : Result (list (option (list (Datum * bool)))) :=
  p ← r; OK p.1.

(** ** The operator as the specification words it

    The cursor of section 4.1, the row materializer of section 4.3 and Next
    of section 4.4, over the row table alone.  The code is compared with
    them below. *)

(** Cursor.Advance: forward, if current < N then current += 1; backward,
    if current > -1 then current -= 1. *)
Definition Cursor_Advance (direction : ScanDirection) (N current : Z) : Z :=
  match direction with
  | ForwardScanDirection => if bool_decide (current < N) then current + 1 else current
  | BackwardScanDirection => if bool_decide (current > -1) then current - 1 else current
  end.

(** The cursor denotes a materializable row. *)
Definition Cursor_InRange (N current : Z) : bool :=
  bool_decide (0 <= current) && bool_decide (current < N).

(** MaterializeRow, steps 4 to 6: each column's expression is evaluated and
    the value frozen before it is stored. *)
Definition MaterializeRow (tupdesc : TupleDesc) (env : ParamEnv)
    (row : list Expr) : list (Datum * bool) :=
  imap (fun c e =>
          let r := eval_expr e env in
          (MakeExpandedObjectReadOnly r.1 r.2 (attlen (attrs tupdesc !!! c)),
           r.2)) row.

(** The schema: derived from row 0. *)
Definition schema_of (rows : list (list Expr)) : TupleDesc :=
  ExecTypeFromExprList (rows !!! 0%nat).

Definition spec_Next (rows : list (list Expr)) (env : ParamEnv)
    (direction : ScanDirection) (current : Z)
    : Result (Z * option (list (Datum * bool))) :=
  let current := Cursor_Advance direction (list_length rows) current in
  if Cursor_InRange (list_length rows) current then
    let row := rows !!! Z.to_nat current in
    _ ← Assert (bool_decide (list_length row = natts (schema_of rows)));
    OK (current, Some (MaterializeRow (schema_of rows) env row))
  else OK (current, None).

Fixpoint spec_run (rows : list (list Expr)) (env : ParamEnv)
    (calls : list Call) (current : Z)
    : Result (list (option (list (Datum * bool))) * Z) :=
  match calls with
  | [] => OK ([], current)
  | CallNext direction :: calls =>
      s ← spec_Next rows env direction current;
      r ← spec_run rows env calls s.1;
      OK (s.2 :: r.1, r.2)
  | CallReScan :: calls => spec_run rows env calls (-1)
  end.

(** Every row has the width of the first one. *)
Definition uniform_width (rows : list (list Expr)) : Prop :=
  Forall (fun row => list_length row = natts (schema_of rows)) rows.

(** The expression-state array ExecInitValuesScan leaves behind: a row is
    compiled there and then, linked to the node, when [gate] holds and the
    row contains a sub-plan; its entry stays NIL otherwise. *)
Fixpoint eager_states (gate : bool) (vtl : list (list Expr)) (serial : nat)
    : list (list ExprState) :=
  match vtl with
  | [] => []
  | exprs :: vtl =>
      if gate && contain_subplans exprs then
        let built := ExecInitExprList exprs (Some ThisPlanState) serial in
        built :: eager_states gate vtl (serial + length built)
      else [] :: eager_states gate vtl serial
  end.

(** ** What holds of a node between calls *)

Record node_inv (rows : list (list Expr)) (env : ParamEnv)
    (node : ValuesScanState) : Prop := {
  inv_exprlists : exprlists node = rows;
  inv_array_len : array_len node = list_length rows;
  inv_int : list_length rows <= INT_MAX;
  inv_cursor : -1 <= curr_idx node <= array_len node;
  inv_states_len : length (exprstatelists node) = length rows;
  inv_states : forall (i : nat) (l : list ExprState),
      exprstatelists node !! i = Some l ->
      l = [] \/ xs_expr <$> l = rows !!! i;
  inv_desc : tts_tupleDescriptor (ss_ScanTupleSlot (ss node)) = schema_of rows;
  inv_values : length (tts_values (ss_ScanTupleSlot (ss node)))
               = Z.to_nat (natts (schema_of rows));
  inv_isnull : length (tts_isnull (ss_ScanTupleSlot (ss node)))
               = Z.to_nat (natts (schema_of rows));
  inv_nvalid : tts_isempty (ss_ScanTupleSlot (ss node)) = false ->
               tts_nvalid (ss_ScanTupleSlot (ss node)) = natts (schema_of rows);
  inv_env : ecxt_param_exec_vals (rowcontext node) = env
}.

(** The row a cursor position stands for: the materialized row when the
    position is in 0..N-1, no row at before-first and past-last. *)
Definition row_at (rows : list (list Expr)) (env : ParamEnv) (current : Z)
    : option (list (Datum * bool)) :=
  if Cursor_InRange (list_length rows) current
  then Some (MaterializeRow (schema_of rows) env (rows !!! Z.to_nat current))
  else None.

(** A per-tuple memory that holds nothing, or the transient expression
    states of exactly one row of the table. *)
Definition one_transient_row (rows : list (list Expr)) (mem : MemoryContext)
    : Prop :=
  mem = []
  \/ exists (i serial : nat),
       (i < length rows)%nat
       /\ list_length (rows !!! i) = natts (schema_of rows)
       /\ mem = ExecInitExprList (rows !!! i) None serial.

End ValuesScan.

(** ** A concrete engine: integer and text constants, addition, sub-plans

    The row table of the scenarios, [[1+1, 'x'], [2+2, 'y']], is written in
    this engine. *)

Module Scenario.

Inductive expr : Type :=
  | IntConst (z : Z)
  | TextConst (s : string)
  | OpPlus (a b : expr)
  | ArrayAppend (s : string)      (* yields a read-write expanded value *)
  | SubPlanRef (plan_id : nat).

Inductive datum : Type :=
  | IntDatum (z : Z)
  | TextDatum (s : string)
  | ExpandedDatum (readonly : bool) (s : string).

Fixpoint contains_subplan (e : expr) : bool :=
  match e with
  | OpPlus a b => contains_subplan a || contains_subplan b
  | SubPlanRef _ => true
  | _ => false
  end.

Definition typlen (e : expr) : Z :=
  match e with
  | IntConst _ | OpPlus _ _ | SubPlanRef _ => 4
  | TextConst _ | ArrayAppend _ => -1
  end.

(** Sub-plan [plan_id] yields the integer the parameter list holds for it,
    NULL when it holds none. *)
Fixpoint eval (e : expr) (params : list Z) : datum * bool :=
  match e with
  | IntConst z => (IntDatum z, false)
  | TextConst s => (TextDatum s, false)
  | OpPlus a b =>
      match eval a params, eval b params with
      | (IntDatum x, false), (IntDatum y, false) => (IntDatum (x + y), false)
      | _, _ => (IntDatum 0, true)
      end
  | ArrayAppend s => (ExpandedDatum false s, false)
  | SubPlanRef plan_id =>
      match params !! plan_id with
      | Some z => (IntDatum z, false)
      | None => (IntDatum 0, true)
      end
  end.

(** Freezing leaves NULLs and fixed-length values alone and turns an
    expanded value read-only. *)
Definition freeze (d : datum) (isnull : bool) (len : Z) : datum :=
  if isnull || negb (bool_decide (len = -1)) then d
  else match d with
       | ExpandedDatum _ s => ExpandedDatum true s
       | _ => d
       end.

Global Instance engine : ExprEngine := {|
  Expr := expr;
  Datum := datum;
  Datum_inhabited := populate (IntDatum 0);
  ParamEnv := list Z;
  SubPlanState := nat;
  expr_contains_subplan := contains_subplan;
  expr_attlen := typlen;
  eval_expr := eval;
  MakeExpandedObjectReadOnly := freeze
|}.

(** [[1+1, 'x'], [2+2, 'y']] *)
Definition table : list (list expr) :=
  [ [OpPlus (IntConst 1) (IntConst 1); TextConst "x"];
    [OpPlus (IntConst 2) (IntConst 2); TextConst "y"] ].

Definition plan (rows : list (list expr)) : ValuesScan :=
  {| values_lists := rows |}.

(** An executor state with the given sub-plan states and parameters. *)
Definition estate (subplanstates : list nat) (params : list Z) : EState :=
  {| es_direction := ForwardScanDirection;
     es_subplanstates := subplanstates;
     es_param_exec_vals := params;
     es_query_cxt := [];
     es_next_serial := 0 |}.

(** Open, then the calls; what the calls returned. *)
Definition scan (rows : list (list expr)) (subplanstates : list nat)
    (params : list Z) (calls : list Call)
    : Result (list (option (list (datum * bool)))) :=
  node ← ExecInitValuesScan (plan rows) (estate subplanstates params) 0;
  outputs_of (run calls node).

(** Open, then the calls; the node they leave. *)
Definition scan_state (rows : list (list expr)) (subplanstates : list nat)
    (params : list Z) (calls : list Call) : Result ValuesScanState :=
  node ← ExecInitValuesScan (plan rows) (estate subplanstates params) 0;
  r ← run calls node;
  OK r.2.

End Scenario.

(** * Properties *)

Section ValuesScanFacts.

Context `{engine : ExprEngine}.

(** ** Machine integers *)

Lemma int32_exact (z : Z) : - 2 ^ 31 <= z <= INT_MAX -> int32 z = z.
Proof.
  unfold int32, INT_MAX. intros Hz.
  rewrite Z.mod_small; lia.
Qed.

(** ** The result monad *)

Lemma bind_OK {A B : Type} (m : Result A) (k : A -> Result B) (b : B) :
  m ≫= k = OK b -> exists a, m = OK a /\ k a = OK b.
Proof. destruct m as [a|e]; simpl; [eauto | discriminate]. Qed.

(** ** Compiling a row *)

Lemma ExecInitExprList_exprs (nodes : list Expr) parent serial :
  xs_expr <$> ExecInitExprList nodes parent serial = nodes.
Proof.
  revert serial. induction nodes as [|e nodes IH]; intros serial; simpl; [done|].
  by rewrite IH.
Qed.

(** ** The column loop *)

Lemma zip_imap_fmap {A B C : Type} (f : nat -> A -> B) (g : A -> C) (l : list A) :
  zip (imap f l) (g <$> l) = imap (fun c x => (f c x, g x)) l.
Proof.
  revert f. induction l as [|x l IH]; intros f; simpl; [done|].
  by rewrite IH.
Qed.

Lemma ValuesNext_foreach_spec (exprstatelist : list ExprState) econtext att :
  forall (resind : nat) (values : list Datum) (isnull : list bool),
    (resind + length exprstatelist <= length values)%nat ->
    (resind + length exprstatelist <= length isnull)%nat ->
    ValuesNext_foreach exprstatelist econtext att resind values isnull =
      (take resind values
         ++ imap (fun c st =>
                    MakeExpandedObjectReadOnly
                      (ExecEvalExpr st econtext).1 (ExecEvalExpr st econtext).2
                      (attlen (att !!! (resind + c)%nat))) exprstatelist
         ++ drop (resind + length exprstatelist) values,
       take resind isnull
         ++ ((fun st => (ExecEvalExpr st econtext).2) <$> exprstatelist)
         ++ drop (resind + length exprstatelist) isnull).
Proof.
  induction exprstatelist as [|st lc IH]; intros resind values isnull Hv Hn; simpl in *.
  - rewrite !Nat.add_0_r, !take_drop. done.
  - rewrite list_insert_insert_eq.
    rewrite !list_lookup_total_insert_eq by lia.
    rewrite IH by (rewrite length_insert; lia).
    replace (S resind + length lc)%nat with (resind + S (length lc))%nat by lia.
    rewrite !drop_insert_lt by lia.
    rewrite (take_S_r _ _ (MakeExpandedObjectReadOnly (ExecEvalExpr st econtext).1
                             (ExecEvalExpr st econtext).2 (attlen (att !!! resind))))
      by (apply list_lookup_insert_eq; lia).
    rewrite (take_S_r _ _ (ExecEvalExpr st econtext).2)
      by (apply list_lookup_insert_eq; lia).
    rewrite !take_insert_ge by lia.
    rewrite <- !app_assoc. simpl.
    rewrite Nat.add_0_r.
    do 4 f_equal.
    apply imap_ext. intros c x _. simpl.
    by replace (resind + S c)%nat with (S (resind + c)) by lia.
Qed.

Lemma ValuesNext_foreach_row (exprstatelist : list ExprState) econtext tupdesc
    (values : list Datum) (isnull : list bool) (row : list Expr) :
  xs_expr <$> exprstatelist = row ->
  length values = length row ->
  length isnull = length row ->
  let r := ValuesNext_foreach exprstatelist econtext (attrs tupdesc) 0 values isnull in
  zip r.1 r.2 = MaterializeRow tupdesc (ecxt_param_exec_vals econtext) row
  /\ length r.1 = length row /\ length r.2 = length row.
Proof.
  intros <- Hv Hn. rewrite length_fmap in Hv, Hn.
  rewrite ValuesNext_foreach_spec by lia. simpl.
  rewrite !drop_ge, !app_nil_r by lia.
  rewrite zip_imap_fmap, length_imap, length_fmap.
  split; [|by rewrite length_fmap].
  unfold MaterializeRow. rewrite imap_fmap. by apply imap_ext.
Qed.

(** ** One call of Next *)

Lemma ValuesNext_unfold (node : ValuesScanState) :
  ValuesNext node =
    let moved := ValuesNext_advance node in
    let slot := ExecClearTuple (ss_ScanTupleSlot (ss node)) in
    if bool_decide (curr_idx moved >= 0)
       && bool_decide (curr_idx moved < array_len moved)
    then ValuesNext_row moved slot (rowcontext node) (state (ps (ss node)))
    else OK (set_scan_slot slot moved).
Proof. reflexivity. Qed.

Lemma ValuesNext_advance_frame (node : ValuesScanState) :
  ss (ValuesNext_advance node) = ss node
  /\ rowcontext (ValuesNext_advance node) = rowcontext node
  /\ exprlists (ValuesNext_advance node) = exprlists node
  /\ array_len (ValuesNext_advance node) = array_len node
  /\ exprstatelists (ValuesNext_advance node) = exprstatelists node.
Proof.
  unfold ValuesNext_advance.
  destruct (ScanDirectionIsForward _); case_bool_decide; done.
Qed.

Lemma ValuesNext_advance_curr_idx (node : ValuesScanState) :
  -1 <= curr_idx node <= array_len node ->
  array_len node <= INT_MAX ->
  curr_idx (ValuesNext_advance node)
  = Cursor_Advance (es_direction (state (ps (ss node))))
      (array_len node) (curr_idx node).
Proof.
  intros Hcur Hint. unfold ValuesNext_advance, Cursor_Advance, INT_MAX in *.
  destruct (es_direction _); simpl; repeat case_bool_decide; simpl; try lia;
    try done; apply int32_exact; unfold INT_MAX; lia.
Qed.

Lemma Cursor_Advance_range direction (N current : Z) :
  -1 <= current <= N ->
  -1 <= Cursor_Advance direction N current <= N.
Proof. intros ?. unfold Cursor_Advance. destruct direction; case_bool_decide; lia. Qed.

Lemma ValuesNext_refines rows env node :
  node_inv rows env node ->
  match ValuesNext node,
        spec_Next rows env (es_direction (state (ps (ss node)))) (curr_idx node) with
  | OK node', OK (current, out) =>
      curr_idx node' = current
      /\ fetch_row (ss_ScanTupleSlot (ss node')) = out
      /\ node_inv rows env node'
      /\ exprstatelists node' = exprstatelists node
  | Fatal e, Fatal e' => e = e'
  | _, _ => False
  end.
Proof.
  intros [Hrows Hlen Hint Hcur Hsl Hst Hdesc Hvals Hnull Hnv Henv].
  rewrite ValuesNext_unfold. unfold spec_Next, Cursor_InRange. cbv zeta.
  destruct (ValuesNext_advance_frame node) as (Hss & Hrc & Hel & Hal & Hesl).
  pose proof (ValuesNext_advance_curr_idx node Hcur ltac:(lia)) as Hc.
  pose proof (Cursor_Advance_range (es_direction (state (ps (ss node)))) _ _ Hcur) as Hr.
  rewrite Hlen in Hc, Hr. rewrite <- Hc. rewrite <- Hc in Hr. rewrite Hal, Hlen.
  set (moved := ValuesNext_advance node) in *. clearbody moved.
  replace (bool_decide (curr_idx moved >= 0)) with (bool_decide (0 <= curr_idx moved))
    by (apply bool_decide_ext; lia).
  destruct (bool_decide (0 <= curr_idx moved) && bool_decide (curr_idx moved < list_length rows)) eqn:Hin.
  2:{ simpl. split_and!; [done..| |done].
      split; simpl; rewrite ?Hss, ?Hrc, ?Hel, ?Hal, ?Hesl; try done. lia. }
  apply andb_prop in Hin as [Hin1 Hin2].
  apply bool_decide_eq_true_1 in Hin1. apply bool_decide_eq_true_1 in Hin2.
  set (i := Z.to_nat (curr_idx moved)).
  assert (Hi : (i < length rows)%nat) by (unfold list_length in *; lia).
  unfold ValuesNext_row. cbv zeta.
  rewrite Hel, Hesl, Hrows. fold i.
  destruct (lookup_lt_is_Some_2 (exprstatelists node) i ltac:(lia)) as [l Hl].
  rewrite (list_lookup_total_correct _ _ _ Hl).
  set (triple := match l with [] => _ | _ :: _ => _ end).
  assert (exists L ec es, triple = (L, ec, es)
            /\ xs_expr <$> L = rows !!! i
            /\ ecxt_param_exec_vals ec = env) as (L & ec & es & -> & HL & Hec).
  { subst triple. destruct l as [|st l'].
    - eexists _, _, _. split; [reflexivity|].
      split; [apply ExecInitExprList_exprs | done].
    - eexists _, _, _. split; [reflexivity|].
      destruct (Hst _ _ Hl) as [?|?]; done. }
  unfold ExecClearTuple.
  cbn [tts_tupleDescriptor tts_values tts_isnull tts_isempty tts_nvalid].
  rewrite Hdesc.
  assert (HlenL : list_length L = list_length (rows !!! i))
    by (unfold list_length; rewrite <- HL, length_fmap; done).
  rewrite HlenL.
  case_bool_decide as Hw; simpl; [|done].
  destruct (ValuesNext_foreach_row L ec (schema_of rows)
              (tts_values (ss_ScanTupleSlot (ss node)))
              (tts_isnull (ss_ScanTupleSlot (ss node))) (rows !!! i) HL)
    as (Hzip & Hv' & Hn').
  { rewrite Hvals, <- Hw. unfold list_length. lia. }
  { rewrite Hnull, <- Hw. unfold list_length. lia. }
  destruct (ValuesNext_foreach L ec _ _ _ _) as [values isnull]. simpl in *.
  split_and!; [done| | |done].
  - unfold fetch_row. simpl. rewrite <- Hw. unfold list_length.
    rewrite !take_ge by lia. by rewrite Hzip, Hec.
  - split; simpl; rewrite ?Hss, ?Hrc, ?Hel, ?Hal, ?Hesl; try done.
    + lia.
    + rewrite Hv', <- Hw. unfold list_length. lia.
    + rewrite Hn', <- Hw. unfold list_length. lia.
Qed.

Lemma node_inv_direction rows env node direction :
  node_inv rows env node ->
  node_inv rows env
    (set_estate (set_es_direction direction (state (ps (ss node)))) node).
Proof. intros []. by split. Qed.

Lemma Next_refines rows env node direction :
  node_inv rows env node ->
  match Next direction node, spec_Next rows env direction (curr_idx node) with
  | OK node', OK (current, out) =>
      curr_idx node' = current
      /\ fetch_row (ss_ScanTupleSlot (ss node')) = out
      /\ node_inv rows env node'
      /\ exprstatelists node' = exprstatelists node
  | Fatal e, Fatal e' => e = e'
  | _, _ => False
  end.
Proof.
  intros Hinv.
  apply (ValuesNext_refines rows env _ (node_inv_direction _ _ _ direction Hinv)).
Qed.

Lemma ExecReScanValuesScan_inv rows env node :
  node_inv rows env node -> node_inv rows env (ExecReScanValuesScan node).
Proof.
  intros []. split; try done. simpl.
  unfold list_length in *. lia.
Qed.

(** The code and the specification's operator agree on every call sequence:
    same outcome, same rows, same cursor. *)
Lemma run_refines rows env calls : forall node,
  node_inv rows env node ->
  match run calls node, spec_run rows env calls (curr_idx node) with
  | OK (outs, node'), OK (outs', current) =>
      outs = outs' /\ curr_idx node' = current
      /\ node_inv rows env node'
      /\ exprstatelists node' = exprstatelists node
  | Fatal e, Fatal e' => e = e'
  | _, _ => False
  end.
Proof.
  induction calls as [|[direction|] calls IH]; intros node Hinv; simpl.
  - done.
  - pose proof (Next_refines rows env node direction Hinv) as Hstep.
    destruct (Next direction node) as [node1|e],
             (spec_Next rows env direction (curr_idx node)) as [[c1 out]|e'];
      simpl; try done.
    destruct Hstep as (Hc & Hout & Hinv1 & Hesl1).
    specialize (IH node1 Hinv1). rewrite Hc in IH.
    destruct (run calls node1) as [[outs node2]|e],
             (spec_run rows env calls c1) as [[outs' c2]|e']; simpl; try done.
    destruct IH as (-> & Hc2 & Hinv2 & Hesl2).
    split_and!; [by rewrite Hout|done..|congruence].
  - apply (IH _ (ExecReScanValuesScan_inv _ _ _ Hinv)).
Qed.

(** ** ExecInitValuesScan *)

Lemma eager_states_length gate vtl serial :
  length (eager_states gate vtl serial) = length vtl.
Proof.
  revert serial. induction vtl as [|exprs vtl IH]; intros serial; simpl; [done|].
  destruct (gate && contain_subplans exprs); simpl; by rewrite IH.
Qed.

Lemma ExecInitValuesScan_foreach_spec (vtl : list (list Expr)) :
  forall (i : nat) (scanstate : ValuesScanState),
    (i + length vtl <= length (exprlists scanstate))%nat ->
    (i + length vtl <= length (exprstatelists scanstate))%nat ->
    drop i (exprstatelists scanstate)
    = replicate (length (exprstatelists scanstate) - i) [] ->
    let r := ExecInitValuesScan_foreach vtl i scanstate in
    let estate := state (ps (ss scanstate)) in
    let built :=
      eager_states (bool_decide (es_subplanstates estate <> [])) vtl
        (es_next_serial estate) in
    exprlists r
    = take i (exprlists scanstate) ++ vtl
        ++ drop (i + length vtl) (exprlists scanstate)
    /\ exprstatelists r
       = take i (exprstatelists scanstate) ++ built
           ++ drop (i + length vtl) (exprstatelists scanstate)
    /\ array_len r = array_len scanstate
    /\ curr_idx r = curr_idx scanstate
    /\ rowcontext r = rowcontext scanstate
    /\ ss_ScanTupleSlot (ss r) = ss_ScanTupleSlot (ss scanstate)
    /\ ps_ResultTupleSlot (ps (ss r)) = ps_ResultTupleSlot (ps (ss scanstate))
    /\ ps_ExprContext (ps (ss r)) = ps_ExprContext (ps (ss scanstate))
    /\ es_direction (state (ps (ss r))) = es_direction estate
    /\ es_subplanstates (state (ps (ss r))) = es_subplanstates estate
    /\ es_param_exec_vals (state (ps (ss r))) = es_param_exec_vals estate
    /\ es_query_cxt (state (ps (ss r))) = es_query_cxt estate ++ concat built
    /\ es_next_serial (state (ps (ss r)))
       = (es_next_serial estate + length (concat built))%nat.
Proof.
  induction vtl as [|exprs vtl IH]; intros i scanstate Hel Hesl Hnil; simpl in *.
  - rewrite Nat.add_0_r, !take_drop, app_nil_r, Nat.add_0_r. done.
  - set (estate := state (ps (ss scanstate))).
    set (gate := bool_decide (es_subplanstates estate <> [])).
    assert (Hi : exprstatelists scanstate !! i = Some []).
    { rewrite <- (Nat.add_0_r i), <- lookup_drop, Hnil.
      apply lookup_replicate_2. lia. }
    destruct (gate && contain_subplans exprs) eqn:Hgate.
    + match goal with |- context [ExecInitValuesScan_foreach vtl (S i) ?s] =>
        specialize (IH (S i) s) end.
      simpl in IH. rewrite !length_insert in IH.
      destruct IH as (E1 & E2 & E3 & E4 & E5 & E6 & E7 & E8 & E9 & E10 & E11 & E12 & E13);
        [lia | lia | |].
      { rewrite drop_insert_lt by lia.
        replace (S i) with (i + 1)%nat by lia.
        rewrite <- drop_drop, Hnil, drop_replicate. f_equal. lia. }
      rewrite E1, E2, E3, E4, E5, E6, E7, E8, E9, E10, E11, E12, E13.
      fold estate gate.
      rewrite !drop_insert_lt by lia.
      rewrite (take_S_r _ _ exprs) by (apply list_lookup_insert_eq; lia).
      rewrite (take_S_r _ _ (ExecInitExprList exprs (Some ThisPlanState) (es_next_serial estate)))
        by (apply list_lookup_insert_eq; lia).
      rewrite !take_insert_ge by lia.
      replace (i + S (length vtl))%nat with (S (i + length vtl)) by lia.
      rewrite <- !app_assoc. simpl.
      split_and!; try done. rewrite length_app. lia.
    + match goal with |- context [ExecInitValuesScan_foreach vtl (S i) ?s] =>
        specialize (IH (S i) s) end.
      simpl in IH. rewrite !length_insert in IH.
      destruct IH as (E1 & E2 & E3 & E4 & E5 & E6 & E7 & E8 & E9 & E10 & E11 & E12 & E13);
        [lia | lia | |].
      { replace (S i) with (i + 1)%nat by lia.
        rewrite <- drop_drop, Hnil, drop_replicate. f_equal. lia. }
      rewrite E1, E2, E3, E4, E5, E6, E7, E8, E9, E10, E11, E12, E13.
      fold estate gate.
      rewrite !drop_insert_lt by lia.
      rewrite (take_S_r _ _ exprs) by (apply list_lookup_insert_eq; lia).
      rewrite (take_S_r _ _ [] Hi).
      rewrite !take_insert_ge by lia.
      replace (i + S (length vtl))%nat with (S (i + length vtl)) by lia.
      rewrite <- !app_assoc. simpl.
      split_and!; done.
Qed.

Lemma eager_states_lookup gate (vtl : list (list Expr)) :
  forall (serial i : nat) (row : list Expr),
    vtl !! i = Some row ->
    eager_states gate vtl serial !! i
    = Some (if gate && contain_subplans row
            then ExecInitExprList row (Some ThisPlanState)
                   (serial + length (concat (eager_states gate (take i vtl) serial)))
            else []).
Proof.
  induction vtl as [|exprs vtl IH]; intros serial i row Hrow; [done|].
  destruct i as [|i]; simpl in *.
  - injection Hrow as ->. rewrite Nat.add_0_r.
    by destruct (gate && contain_subplans row).
  - destruct (gate && contain_subplans exprs); simpl; rewrite (IH _ _ _ Hrow);
      [|done].
    destruct (gate && contain_subplans row); [|done].
    do 2 f_equal. rewrite length_app. lia.
Qed.

Lemma eager_states_exprs gate (vtl : list (list Expr)) serial (i : nat) l :
  eager_states gate vtl serial !! i = Some l ->
  l = [] \/ xs_expr <$> l = vtl !!! i.
Proof.
  intros Hl.
  destruct (lookup_lt_is_Some_2 vtl i) as [row Hrow].
  { rewrite <- (eager_states_length gate vtl serial). by eapply lookup_lt_Some. }
  rewrite (eager_states_lookup _ _ _ _ _ Hrow) in Hl.
  rewrite (list_lookup_total_correct _ _ _ Hrow).
  injection Hl as <-. destruct (gate && contain_subplans row); [right|by left].
  apply ExecInitExprList_exprs.
Qed.

Lemma ExecInitValuesScan_spec (node : ValuesScan) (estate : EState) (eflags : Z) :
  match ExecInitValuesScan node estate eflags with
  | Fatal e => e = NoFirstCell /\ values_lists node = []
  | OK scanstate =>
      let built :=
        eager_states (bool_decide (es_subplanstates estate <> []))
          (values_lists node) (es_next_serial estate) in
      values_lists node <> []
      /\ exprlists scanstate = values_lists node
      /\ exprstatelists scanstate = built
      /\ array_len scanstate = list_length (values_lists node)
      /\ curr_idx scanstate = -1
      /\ rowcontext scanstate = CreateExprContext estate
      /\ ss_ScanTupleSlot (ss scanstate)
         = ExecSetSlotDescriptor MakeTupleTableSlot (schema_of (values_lists node))
      /\ ps_ResultTupleSlot (ps (ss scanstate)) = MakeTupleTableSlot
      /\ ps_ExprContext (ps (ss scanstate)) = CreateExprContext estate
      /\ es_direction (state (ps (ss scanstate))) = es_direction estate
      /\ es_subplanstates (state (ps (ss scanstate))) = es_subplanstates estate
      /\ es_param_exec_vals (state (ps (ss scanstate))) = es_param_exec_vals estate
      /\ es_query_cxt (state (ps (ss scanstate)))
         = es_query_cxt estate ++ concat built
      /\ es_next_serial (state (ps (ss scanstate)))
         = (es_next_serial estate + length (concat built))%nat
  end.
Proof.
  unfold ExecInitValuesScan. destruct node as [rows].
  cbn [values_lists].
  destruct rows as [|first rows]; [done|].
  cbn [linitial mbind Result_bind].
  change (ExecTypeFromExprList first) with (schema_of (first :: rows)).
  assert (Hne : first :: rows <> []) by done.
  generalize dependent (first :: rows). clear first rows. intros vtl Hne.
  unfold list_length. rewrite Nat2Z.id.
  match goal with |- context [ExecInitValuesScan_foreach vtl 0 ?s] =>
    pose proof (ExecInitValuesScan_foreach_spec vtl 0 s) as H end.
  cbn -[eager_states] in H. rewrite !length_replicate in H.
  destruct H as (E1 & E2 & E3 & E4 & E5 & E6 & E7 & E8 & E9 & E10 & E11 & E12 & E13);
    [lia | lia | by rewrite Nat.sub_0_r |].
  rewrite drop_ge, app_nil_r in E1 by (rewrite length_replicate; lia).
  rewrite drop_ge, app_nil_r in E2 by (rewrite length_replicate; lia).
  cbv zeta. split_and!; done.
Qed.

Lemma ExecInitValuesScan_inv (node : ValuesScan) (estate : EState) (eflags : Z)
    (scanstate : ValuesScanState) :
  ExecInitValuesScan node estate eflags = OK scanstate ->
  list_length (values_lists node) <= INT_MAX ->
  node_inv (values_lists node) (es_param_exec_vals estate) scanstate.
Proof.
  intros Hinit Hint.
  pose proof (ExecInitValuesScan_spec node estate eflags) as H.
  rewrite Hinit in H. simpl in H.
  destruct H as (Hne & E1 & E2 & E3 & E4 & E5 & E6 & _).
  split; rewrite ?E1, ?E2, ?E3, ?E4, ?E5, ?E6; simpl; try done.
  - unfold list_length. lia.
  - apply eager_states_length.
  - intros i l. apply eager_states_exprs.
  - by rewrite length_replicate.
  - by rewrite length_replicate.
Qed.

(** ** The specification's operator on uniform row tables *)

Lemma spec_Next_in_range rows env direction (current : Z) :
  uniform_width rows ->
  let moved := Cursor_Advance direction (list_length rows) current in
  0 <= moved < list_length rows ->
  spec_Next rows env direction current
  = OK (moved, Some (MaterializeRow (schema_of rows) env (rows !!! Z.to_nat moved))).
Proof.
  intros Huni moved Hin. unfold spec_Next, Cursor_InRange. fold moved.
  rewrite !bool_decide_eq_true_2 by lia. simpl.
  destruct (lookup_lt_is_Some_2 rows (Z.to_nat moved)) as [row Hrow].
  { unfold list_length in Hin. lia. }
  rewrite (list_lookup_total_correct _ _ _ Hrow).
  unfold uniform_width in Huni. rewrite Forall_lookup in Huni.
  by rewrite bool_decide_eq_true_2 by (by eapply Huni).
Qed.

Lemma spec_Next_out_of_range rows env direction (current : Z) :
  let moved := Cursor_Advance direction (list_length rows) current in
  ~ (0 <= moved < list_length rows) ->
  spec_Next rows env direction current = OK (moved, None).
Proof.
  intros moved Hout. unfold spec_Next, Cursor_InRange. fold moved.
  destruct (bool_decide (0 <= moved)) eqn:H1; [|done].
  destruct (bool_decide (moved < list_length rows)) eqn:H2; [|done].
  apply bool_decide_eq_true_1 in H1. apply bool_decide_eq_true_1 in H2. lia.
Qed.

(** [k] forward calls from cursor [current]: the rows after the cursor, in
    table order, then end markers. *)
Lemma spec_run_forward rows env (k : nat) : forall (current : Z),
  uniform_width rows ->
  -1 <= current <= list_length rows ->
  spec_run rows env (replicate k (CallNext ForwardScanDirection)) current
  = OK ((Some ∘ MaterializeRow (schema_of rows) env
           <$> take k (drop (Z.to_nat (current + 1)) rows))
          ++ replicate (k - (length rows - Z.to_nat (current + 1))) None,
        Z.min (current + Z.of_nat k) (list_length rows)).
Proof.
  induction k as [|k IH]; intros current Huni Hcur.
  - simpl. f_equal. f_equal. lia.
  - cbn [replicate spec_run].
    pose (moved := Cursor_Advance ForwardScanDirection (list_length rows) current).
    assert (Hm : -1 <= moved <= list_length rows) by by apply Cursor_Advance_range.
    destruct (decide (current < list_length rows - 1)) as [Hlt|Hge].
    + assert (Hmoved : moved = current + 1).
      { unfold moved, Cursor_Advance. rewrite bool_decide_eq_true_2; lia. }
      rewrite (spec_Next_in_range rows env) by (try done; fold moved; lia).
      fold moved. rewrite Hmoved. cbn [mbind Result_bind fst snd].
      rewrite IH by (try done; lia). cbn [mbind Result_bind fst snd].
      unfold list_length in *.
      destruct (lookup_lt_is_Some_2 rows (Z.to_nat (current + 1))) as [row Hrow];
        [lia|].
      rewrite (list_lookup_total_correct _ _ _ Hrow).
      rewrite (drop_S _ _ _ Hrow). cbn [take fmap list_fmap].
      replace (Z.to_nat (current + 1 + 1)) with (S (Z.to_nat (current + 1))) by lia.
      replace (S k - (length rows - Z.to_nat (current + 1)))%nat
        with (k - (length rows - S (Z.to_nat (current + 1))))%nat by lia.
      replace (current + 1 + Z.of_nat k) with (current + Z.of_nat (S k)) by lia.
      done.
    + assert (Hmoved : moved = list_length rows).
      { unfold moved, Cursor_Advance. case_bool_decide; lia. }
      rewrite (spec_Next_out_of_range rows env) by (fold moved; lia).
      fold moved. rewrite Hmoved. cbn [mbind Result_bind fst snd].
      rewrite IH by (try done; lia). cbn [mbind Result_bind fst snd].
      unfold list_length in *.
      rewrite !drop_ge by lia. rewrite !take_nil. cbn [fmap list_fmap app].
      f_equal. f_equal.
      * replace (S k - (length rows - Z.to_nat (current + 1)))%nat with (S k) by lia.
        replace (k - (length rows - Z.to_nat (Z.of_nat (length rows) + 1)))%nat
          with k by lia.
        done.
      * lia.
Qed.

(** [k] backward calls from cursor [current]: the rows before the cursor,
    last first, then end markers. *)
Lemma spec_run_backward rows env (k : nat) : forall (current : Z),
  uniform_width rows ->
  -1 <= current <= list_length rows ->
  spec_run rows env (replicate k (CallNext BackwardScanDirection)) current
  = OK ((Some ∘ MaterializeRow (schema_of rows) env
           <$> take k (reverse (take (Z.to_nat current) rows)))
          ++ replicate (k - Z.to_nat current) None,
        Z.max (current - Z.of_nat k) (-1)).
Proof.
  induction k as [|k IH]; intros current Huni Hcur.
  - simpl. f_equal. f_equal. lia.
  - cbn [replicate spec_run].
    pose (moved := Cursor_Advance BackwardScanDirection (list_length rows) current).
    assert (Hm : -1 <= moved <= list_length rows) by by apply Cursor_Advance_range.
    destruct (decide (0 < current)) as [Hpos|Hnpos].
    + assert (Hmoved : moved = current - 1).
      { unfold moved, Cursor_Advance. rewrite bool_decide_eq_true_2; lia. }
      rewrite (spec_Next_in_range rows env) by (try done; fold moved; lia).
      fold moved. rewrite Hmoved. cbn [mbind Result_bind fst snd].
      rewrite IH by (try done; lia). cbn [mbind Result_bind fst snd].
      unfold list_length in *.
      destruct (lookup_lt_is_Some_2 rows (Z.to_nat (current - 1))) as [row Hrow];
        [lia|].
      rewrite (list_lookup_total_correct _ _ _ Hrow).
      replace (Z.to_nat current) with (S (Z.to_nat (current - 1))) by lia.
      rewrite (take_S_r _ _ _ Hrow), reverse_snoc. cbn [take fmap list_fmap].
      do 2 f_equal.
      lia.
    + assert (Hmoved : moved = -1).
      { unfold moved, Cursor_Advance. case_bool_decide; lia. }
      rewrite (spec_Next_out_of_range rows env) by (fold moved; lia).
      fold moved. rewrite Hmoved. cbn [mbind Result_bind fst snd].
      rewrite IH by (try done; lia). cbn [mbind Result_bind fst snd].
      replace (Z.to_nat current) with 0%nat by lia.
      change (Z.to_nat (-1)) with 0%nat.
      rewrite !take_0, reverse_nil, !take_nil. cbn [fmap list_fmap app].
      rewrite !Nat.sub_0_r.
      f_equal. f_equal. lia.
Qed.

(** ** What a call leaves alone *)

Lemma ValuesNext_row_frame node slot econtext estate node' :
  ValuesNext_row node slot econtext estate = OK node' ->
  exprstatelists node' = exprstatelists node
  /\ exprlists node' = exprlists node
  /\ array_len node' = array_len node
  /\ curr_idx node' = curr_idx node
  /\ ps_ExprContext (ps (ss node')) = ps_ExprContext (ps (ss node))
  /\ ps_ResultTupleSlot (ps (ss node')) = ps_ResultTupleSlot (ps (ss node))
  /\ es_query_cxt (state (ps (ss node'))) = es_query_cxt estate
  /\ tts_isempty (ss_ScanTupleSlot (ss node')) = false
  /\ ecxt_per_tuple_memory (rowcontext node')
     = match exprstatelists node !!! Z.to_nat (curr_idx node) with
       | [] => ExecInitExprList (exprlists node !!! Z.to_nat (curr_idx node))
                 None (es_next_serial estate)
       | _ :: _ => []
       end.
Proof.
  unfold ValuesNext_row. cbv zeta.
  destruct (exprstatelists node !!! Z.to_nat (curr_idx node)) as [|st l];
    case_bool_decide; simpl; try done;
    destruct (ValuesNext_foreach _ _ _ _ _ _) as [values isnull];
    intros [= <-]; simpl; done.
Qed.

Lemma ValuesNext_frame node node' :
  ValuesNext node = OK node' ->
  exprstatelists node' = exprstatelists node
  /\ exprlists node' = exprlists node
  /\ array_len node' = array_len node
  /\ curr_idx node' = curr_idx (ValuesNext_advance node)
  /\ ps_ExprContext (ps (ss node')) = ps_ExprContext (ps (ss node))
  /\ ps_ResultTupleSlot (ps (ss node')) = ps_ResultTupleSlot (ps (ss node))
  /\ es_query_cxt (state (ps (ss node'))) = es_query_cxt (state (ps (ss node)))
  /\ (tts_isempty (ss_ScanTupleSlot (ss node')) = false
      <-> 0 <= curr_idx node' < array_len node')
  /\ (0 <= curr_idx node' < array_len node' ->
      ecxt_per_tuple_memory (rowcontext node')
      = match exprstatelists node !!! Z.to_nat (curr_idx node') with
        | [] => ExecInitExprList (exprlists node !!! Z.to_nat (curr_idx node'))
                  None (es_next_serial (state (ps (ss node))))
        | _ :: _ => []
        end).
Proof.
  rewrite ValuesNext_unfold. cbv zeta.
  destruct (ValuesNext_advance_frame node) as (Hss & Hrc & Hel & Hal & Hesl).
  set (moved := ValuesNext_advance node) in *. clearbody moved.
  destruct (bool_decide (curr_idx moved >= 0)) eqn:H1;
    [destruct (bool_decide (curr_idx moved < array_len moved)) eqn:H2|]; simpl.
  - apply bool_decide_eq_true_1 in H1. apply bool_decide_eq_true_1 in H2.
    intros Hrow. apply ValuesNext_row_frame in Hrow.
    destruct Hrow as (-> & -> & -> & -> & -> & -> & -> & -> & ->).
    rewrite Hss, Hel, Hal, Hesl in *. split_and!; try done. split; [lia|done].
  - apply bool_decide_eq_false_1 in H2.
    intros [= <-]. simpl. rewrite Hss. split_and!; try done.
    + split; [done|lia].
    + lia.
  - apply bool_decide_eq_false_1 in H1.
    intros [= <-]. simpl. rewrite Hss. split_and!; try done.
    + split; [done|lia].
    + lia.
Qed.

Lemma ValuesNext_Fatal node e :
  ValuesNext node = Fatal e ->
  e = FailedAssertion
  /\ 0 <= curr_idx (ValuesNext_advance node) < array_len node.
Proof.
  rewrite ValuesNext_unfold. cbv zeta.
  destruct (ValuesNext_advance_frame node) as (Hss & Hrc & Hel & Hal & Hesl).
  set (moved := ValuesNext_advance node) in *. clearbody moved.
  destruct (bool_decide (curr_idx moved >= 0)) eqn:H1;
    [destruct (bool_decide (curr_idx moved < array_len moved)) eqn:H2|];
    simpl; try done.
  apply bool_decide_eq_true_1 in H1. apply bool_decide_eq_true_1 in H2.
  unfold ValuesNext_row. cbv zeta.
  destruct (exprstatelists moved !!! Z.to_nat (curr_idx moved)) as [|st l];
    case_bool_decide; simpl;
    try (destruct (ValuesNext_foreach _ _ _ _ _ _) as [values isnull]; done);
    intros [= <-]; (split; [done|lia]).
Qed.


(** Nothing that runs after construction writes the expression-state array
    or allocates in the per-query context. *)
Lemma run_frame calls : forall node outs node',
  run calls node = OK (outs, node') ->
  exprstatelists node' = exprstatelists node
  /\ exprlists node' = exprlists node
  /\ array_len node' = array_len node
  /\ es_query_cxt (state (ps (ss node'))) = es_query_cxt (state (ps (ss node))).
Proof.
  induction calls as [|[direction|] calls IH]; intros node outs node'; simpl.
  - by intros [= _ <-].
  - unfold Next. intros Hrun.
    apply bind_OK in Hrun as (node1 & Hnext & Hrun).
    apply bind_OK in Hrun as ([outs2 node2] & Hrun & [= _ <-]).
    apply ValuesNext_frame in Hnext as (E1 & E2 & E3 & _ & _ & _ & E7 & _).
    apply IH in Hrun as (-> & -> & -> & ->). simpl in *. done.
  - intros Hrun. apply IH in Hrun as (-> & -> & -> & ->). done.
Qed.

(** ** From the specification's operator back to the code *)

Lemma run_of_spec rows env calls node outs current :
  node_inv rows env node ->
  spec_run rows env calls (curr_idx node) = OK (outs, current) ->
  exists node',
    run calls node = OK (outs, node')
    /\ curr_idx node' = current
    /\ node_inv rows env node'.
Proof.
  intros Hinv Hspec. pose proof (run_refines rows env calls node Hinv) as H.
  rewrite Hspec in H.
  destruct (run calls node) as [[outs1 node1]|e]; [|done].
  destruct H as (-> & ? & ? & ?). eauto.
Qed.

Lemma spec_of_run rows env calls node outs node' :
  node_inv rows env node ->
  run calls node = OK (outs, node') ->
  spec_run rows env calls (curr_idx node) = OK (outs, curr_idx node')
  /\ node_inv rows env node'.
Proof.
  intros Hinv Hrun. pose proof (run_refines rows env calls node Hinv) as H.
  rewrite Hrun in H.
  destruct (spec_run rows env calls (curr_idx node)) as [[outs1 c1]|e]; [|done].
  destruct H as (-> & -> & ? & ?). eauto.
Qed.

Lemma spec_run_total rows env calls : forall (current : Z),
  uniform_width rows ->
  exists outs current', spec_run rows env calls current = OK (outs, current').
Proof.
  induction calls as [|[direction|] calls IH]; intros current Huni; simpl.
  - eauto.
  - pose (moved := Cursor_Advance direction (list_length rows) current).
    destruct (decide (0 <= moved < list_length rows)) as [Hin|Hout].
    + rewrite (spec_Next_in_range rows env) by done.
      destruct (IH moved Huni) as (outs & c & Hrun).
      cbn [mbind Result_bind fst snd]. fold moved. rewrite Hrun. simpl. eauto.
    + rewrite (spec_Next_out_of_range rows env) by done.
      destruct (IH moved Huni) as (outs & c & Hrun).
      cbn [mbind Result_bind fst snd]. fold moved. rewrite Hrun. simpl. eauto.
  - apply IH, Huni.
Qed.

(** ** Scans of the code *)

Lemma run_forward rows env node (k : nat) :
  node_inv rows env node ->
  uniform_width rows ->
  exists node',
    run (replicate k (CallNext ForwardScanDirection)) node
    = OK ((Some ∘ MaterializeRow (schema_of rows) env
             <$> take k (drop (Z.to_nat (curr_idx node + 1)) rows))
            ++ replicate (k - (length rows - Z.to_nat (curr_idx node + 1))) None,
          node')
    /\ curr_idx node' = Z.min (curr_idx node + Z.of_nat k) (list_length rows)
    /\ node_inv rows env node'.
Proof.
  intros Hinv Huni. eapply run_of_spec; [done|].
  apply spec_run_forward; [done|].
  destruct Hinv. lia.
Qed.

Lemma run_backward rows env node (k : nat) :
  node_inv rows env node ->
  uniform_width rows ->
  exists node',
    run (replicate k (CallNext BackwardScanDirection)) node
    = OK ((Some ∘ MaterializeRow (schema_of rows) env
             <$> take k (reverse (take (Z.to_nat (curr_idx node)) rows)))
            ++ replicate (k - Z.to_nat (curr_idx node)) None,
          node')
    /\ curr_idx node' = Z.max (curr_idx node - Z.of_nat k) (-1)
    /\ node_inv rows env node'.
Proof.
  intros Hinv Huni. eapply run_of_spec; [done|].
  apply spec_run_backward; [done|].
  destruct Hinv. lia.
Qed.

Lemma ExecInitValuesScan_OK (node : ValuesScan) (estate : EState) (eflags : Z) :
  values_lists node <> [] ->
  exists scanstate, ExecInitValuesScan node estate eflags = OK scanstate.
Proof.
  intros Hne. pose proof (ExecInitValuesScan_spec node estate eflags) as H.
  destruct (ExecInitValuesScan node estate eflags) as [scanstate|e]; [eauto|].
  by destruct H.
Qed.

Lemma ExecInitValuesScan_curr_idx (node : ValuesScan) estate eflags scanstate :
  ExecInitValuesScan node estate eflags = OK scanstate ->
  curr_idx scanstate = -1 /\ values_lists node <> [].
Proof.
  intros Hinit. pose proof (ExecInitValuesScan_spec node estate eflags) as H.
  rewrite Hinit in H. simpl in H. by destruct H as (? & _ & _ & _ & ? & _).
Qed.

(** C1, amended to N >= 1.  For every row table of N >= 1 uniform-width
    rows, Open (ExecInitValuesScan) succeeds, and any number [k] of
    Next(Forward) calls from the fresh node yields the first [min k N] rows
    materialized in row-table order and then end markers only (a cleared
    slot, read as [None]): exactly N rows, the end marker at call N+1, and
    the end marker again on every further call, with the cursor saturated
    at N. *)
Theorem forward_scan_rows_then_end_markers
    (node : ValuesScan) (estate : EState) (eflags : Z) :
  values_lists node <> [] ->
  uniform_width (values_lists node) ->
  list_length (values_lists node) <= INT_MAX ->
  exists scanstate,
    ExecInitValuesScan node estate eflags = OK scanstate
    /\ forall k : nat,
        exists scanstate',
          run (replicate k (CallNext ForwardScanDirection)) scanstate
          = OK ((Some ∘ MaterializeRow (schema_of (values_lists node))
                          (es_param_exec_vals estate)
                   <$> take k (values_lists node))
                  ++ replicate (k - length (values_lists node)) None,
                scanstate')
          /\ curr_idx scanstate'
             = Z.min (Z.of_nat k - 1) (list_length (values_lists node)).
Proof.
  intros Hne Huni Hint.
  destruct (ExecInitValuesScan_OK node estate eflags Hne) as [scanstate Hinit].
  exists scanstate. split; [done|]. intros k.
  pose proof (ExecInitValuesScan_inv _ _ _ _ Hinit Hint) as Hinv.
  destruct (ExecInitValuesScan_curr_idx _ _ _ _ Hinit) as [Hc _].
  destruct (run_forward _ _ _ k Hinv Huni) as (scanstate' & Hrun & Hc' & _).
  rewrite Hc in Hrun, Hc'. simpl in Hrun. rewrite Nat.sub_0_r in Hrun.
  exists scanstate'. split; [done|]. lia.
Qed.

(** C2, amended.  From a fresh Open the cursor is before the first row, so
    every Next(Backward) returns the end marker and the cursor stays at -1.
    A backward scan that starts past the last row, after a forward scan has
    been exhausted by more than N Next(Forward) calls, yields the N rows in
    reverse row-table order and then saturates at end markers. *)
Theorem backward_scan_from_either_end
    (node : ValuesScan) (estate : EState) (eflags : Z) (scanstate : ValuesScanState) :
  ExecInitValuesScan node estate eflags = OK scanstate ->
  uniform_width (values_lists node) ->
  list_length (values_lists node) <= INT_MAX ->
  (forall k : nat,
      exists scanstate',
        run (replicate k (CallNext BackwardScanDirection)) scanstate
        = OK (replicate k None, scanstate')
        /\ curr_idx scanstate' = -1)
  /\ (forall j : nat,
        (length (values_lists node) < j)%nat ->
        exists outs exhausted,
          run (replicate j (CallNext ForwardScanDirection)) scanstate
          = OK (outs, exhausted)
          /\ curr_idx exhausted = list_length (values_lists node)
          /\ forall k : nat,
              exists scanstate',
                run (replicate k (CallNext BackwardScanDirection)) exhausted
                = OK ((Some ∘ MaterializeRow (schema_of (values_lists node))
                                (es_param_exec_vals estate)
                         <$> take k (reverse (values_lists node)))
                        ++ replicate (k - length (values_lists node)) None,
                      scanstate')
                /\ curr_idx scanstate'
                   = Z.max (list_length (values_lists node) - Z.of_nat k) (-1)).
Proof.
  intros Hinit Huni Hint.
  pose proof (ExecInitValuesScan_inv _ _ _ _ Hinit Hint) as Hinv.
  destruct (ExecInitValuesScan_curr_idx _ _ _ _ Hinit) as [Hc _].
  split.
  - intros k.
    destruct (run_backward _ _ _ k Hinv Huni) as (scanstate' & Hrun & Hc' & _).
    rewrite Hc in Hrun, Hc'. change (Z.to_nat (-1)) with 0%nat in Hrun.
    rewrite take_0, reverse_nil, take_nil, Nat.sub_0_r in Hrun.
    exists scanstate'. split; [done|]. lia.
  - intros j Hj.
    destruct (run_forward _ _ _ j Hinv Huni) as (exhausted & Hrun & Hc' & Hinv').
    rewrite Hc in Hc'.
    assert (Hex : curr_idx exhausted = list_length (values_lists node))
      by (unfold list_length in *; lia).
    eexists _, exhausted. split; [exact Hrun|]. split; [done|]. intros k.
    destruct (run_backward _ _ _ k Hinv' Huni) as (scanstate' & Hrun' & Hc'' & _).
    rewrite Hex in Hrun', Hc''. unfold list_length in Hrun'.
    rewrite Nat2Z.id, firstn_all in Hrun'.
    exists scanstate'. split; done.
Qed.

(** C10.  For a row table of N >= 1 rows, once a forward scan is exhausted
    (more than N Next(Forward) calls: the last one returned the end marker
    and the cursor is N), one Next(Backward) moves the cursor to N-1 and
    returns the materialized last row. *)
Theorem backward_after_forward_exhaustion_resumes
    (node : ValuesScan) (estate : EState) (eflags : Z) (scanstate : ValuesScanState)
    (j : nat) :
  ExecInitValuesScan node estate eflags = OK scanstate ->
  uniform_width (values_lists node) ->
  list_length (values_lists node) <= INT_MAX ->
  (length (values_lists node) < j)%nat ->
  exists outs exhausted,
    run (replicate j (CallNext ForwardScanDirection)) scanstate
    = OK (outs, exhausted)
    /\ last outs = Some None
    /\ curr_idx exhausted = list_length (values_lists node)
    /\ exists resumed,
        Next BackwardScanDirection exhausted = OK resumed
        /\ curr_idx resumed = list_length (values_lists node) - 1
        /\ fetch_row (ss_ScanTupleSlot (ss resumed))
           = Some (MaterializeRow (schema_of (values_lists node))
                     (es_param_exec_vals estate)
                     (values_lists node !!! (length (values_lists node) - 1)%nat)).
Proof.
  intros Hinit Huni Hint Hj.
  pose proof (ExecInitValuesScan_inv _ _ _ _ Hinit Hint) as Hinv.
  destruct (ExecInitValuesScan_curr_idx _ _ _ _ Hinit) as [Hc Hne].
  destruct (run_forward _ _ _ j Hinv Huni) as (exhausted & Hrun & Hc' & Hinv').
  rewrite Hc in Hrun, Hc'. simpl in Hrun. rewrite Nat.sub_0_r in Hrun.
  assert (Hex : curr_idx exhausted = list_length (values_lists node))
    by (unfold list_length in *; lia).
  assert (Hpos : (0 < length (values_lists node))%nat)
    by (destruct (values_lists node); simpl; [done|lia]).
  eexists _, exhausted. split; [exact Hrun|]. split_and!; [|done|].
  { destruct (j - length (values_lists node))%nat as [|d] eqn:Hd; [lia|].
    rewrite replicate_S_end, app_assoc. apply last_snoc. }
  pose proof (Next_refines _ _ exhausted BackwardScanDirection Hinv') as Hstep.
  rewrite (spec_Next_in_range _ (es_param_exec_vals estate)) in Hstep.
  2: done.
  2:{ rewrite Hex. unfold Cursor_Advance, list_length.
      rewrite bool_decide_eq_true_2 by lia. lia. }
  destruct (Next BackwardScanDirection exhausted) as [resumed|e]; [|done].
  destruct Hstep as (Hc2 & Hout & _ & _).
  exists resumed. rewrite Hc2, Hout, Hex.
  unfold Cursor_Advance, list_length. rewrite bool_decide_eq_true_2 by lia.
  split_and!; [done..|]. do 3 f_equal. lia.
Qed.

(** C3.  Open on an empty row table fails with the fatal failure of taking
    the first row of a table that has none (the schema cannot be derived);
    on every other row table Open returns a node. *)
Theorem ExecInitValuesScan_empty_table_is_fatal
    (node : ValuesScan) (estate : EState) (eflags : Z) :
  match values_lists node with
  | [] => ExecInitValuesScan node estate eflags = Fatal NoFirstCell
  | _ :: _ => exists scanstate, ExecInitValuesScan node estate eflags = OK scanstate
  end.
Proof.
  destruct (values_lists node) as [|first rows] eqn:Hrows.
  - unfold ExecInitValuesScan. by rewrite Hrows.
  - apply ExecInitValuesScan_OK. by rewrite Hrows.
Qed.


Lemma outputs_of_same_cursor rows env calls node1 node2 :
  node_inv rows env node1 ->
  node_inv rows env node2 ->
  curr_idx node1 = curr_idx node2 ->
  outputs_of (run calls node1) = outputs_of (run calls node2).
Proof.
  intros Hinv1 Hinv2 Hc.
  pose proof (run_refines rows env calls node1 Hinv1) as H1.
  pose proof (run_refines rows env calls node2 Hinv2) as H2.
  rewrite <- Hc in H2.
  destruct (spec_run rows env calls (curr_idx node1)) as [[outs c]|e],
           (run calls node1) as [[outs1 n1]|e1],
           (run calls node2) as [[outs2 n2]|e2]; try done; simpl.
  - destruct H1 as (-> & _), H2 as (-> & _). done.
  - congruence.
Qed.

(** C5.  After any calls on a freshly opened node, ExecReScanValuesScan
    gives a node on which every call sequence returns what it returns on a
    node freshly opened on the same row table (by the same Open or by
    another one under the same parameter values): the same rows and end
    markers in the same order, or the same fatal failure.  The expression
    states compiled at Open are the same objects (same serial numbers) and
    nothing was added to the per-query memory. *)
Theorem rescan_replays_fresh_open
    (node : ValuesScan) (estate : EState) (eflags : Z)
    (scanstate : ValuesScanState) (calls : list Call)
    (outs : list (option (list (Datum * bool)))) (used : ValuesScanState)
    (estate' : EState) (eflags' : Z) (fresh : ValuesScanState) :
  ExecInitValuesScan node estate eflags = OK scanstate ->
  list_length (values_lists node) <= INT_MAX ->
  run calls scanstate = OK (outs, used) ->
  ExecInitValuesScan node estate' eflags' = OK fresh ->
  es_param_exec_vals estate' = es_param_exec_vals estate ->
  (forall replay : list Call,
      outputs_of (run replay (ExecReScanValuesScan used))
      = outputs_of (run replay fresh))
  /\ exprstatelists (ExecReScanValuesScan used) = exprstatelists scanstate
  /\ es_query_cxt (state (ps (ss (ExecReScanValuesScan used))))
     = es_query_cxt (state (ps (ss scanstate))).
Proof.
  intros Hinit Hint Hrun Hfresh Henv.
  pose proof (ExecInitValuesScan_inv _ _ _ _ Hinit Hint) as Hinv.
  pose proof (ExecInitValuesScan_inv _ _ _ _ Hfresh Hint) as Hinvf.
  rewrite Henv in Hinvf.
  destruct (ExecInitValuesScan_curr_idx _ _ _ _ Hfresh) as [Hc _].
  destruct (spec_of_run _ _ _ _ _ _ Hinv Hrun) as [_ Hinv'].
  apply run_frame in Hrun as (E1 & _ & _ & E4).
  split_and!; [|done..].
  intros replay.
  apply (outputs_of_same_cursor (values_lists node) (es_param_exec_vals estate));
    [by apply ExecReScanValuesScan_inv | done | by rewrite Hc].
Qed.

Lemma spec_Next_OK rows env direction (current moved : Z) out :
  spec_Next rows env direction current = OK (moved, out) ->
  moved = Cursor_Advance direction (list_length rows) current
  /\ (if Cursor_InRange (list_length rows) moved
      then list_length (rows !!! Z.to_nat moved) = natts (schema_of rows)
           /\ out = Some (MaterializeRow (schema_of rows) env
                            (rows !!! Z.to_nat moved))
      else out = None).
Proof.
  unfold spec_Next.
  destruct (Cursor_InRange _ (Cursor_Advance _ _ _)) eqn:Hin.
  - case_bool_decide; simpl; [|done]. intros [= <- <-]. by rewrite Hin.
  - intros [= <- <-]. by rewrite Hin.
Qed.

(** C8.  On a freshly opened node over a row table whose rows all have the
    width C of the first row, no sequence of calls fails: the assertion of
    ValuesNext holds at every row it materializes.  On any row table, a Next
    that lands on a row whose width is not C stops with the failed
    assertion. *)
Theorem column_count_assertion
    (node : ValuesScan) (estate : EState) (eflags : Z)
    (scanstate : ValuesScanState) :
  ExecInitValuesScan node estate eflags = OK scanstate ->
  list_length (values_lists node) <= INT_MAX ->
  (uniform_width (values_lists node) ->
   forall calls : list Call,
     exists outs scanstate', run calls scanstate = OK (outs, scanstate'))
  /\ (forall (calls : list Call) outs reached direction,
        run calls scanstate = OK (outs, reached) ->
        let moved :=
          Cursor_Advance direction (list_length (values_lists node))
            (curr_idx reached) in
        0 <= moved < list_length (values_lists node) ->
        list_length (values_lists node !!! Z.to_nat moved)
        <> natts (schema_of (values_lists node)) ->
        tts_tupleDescriptor (ss_ScanTupleSlot (ss reached))
        = schema_of (values_lists node)
        /\ Next direction reached = Fatal FailedAssertion).
Proof.
  intros Hinit Hint.
  pose proof (ExecInitValuesScan_inv _ _ _ _ Hinit Hint) as Hinv.
  split.
  - intros Huni calls.
    destruct (spec_run_total (values_lists node) (es_param_exec_vals estate)
                calls (curr_idx scanstate) Huni) as (outs & c & Hspec).
    destruct (run_of_spec _ _ _ _ _ _ Hinv Hspec) as (scanstate' & Hrun & _).
    eauto.
  - intros calls outs reached direction Hrun moved Hin Hwidth.
    destruct (spec_of_run _ _ _ _ _ _ Hinv Hrun) as [_ Hinv'].
    pose proof (Next_refines _ _ reached direction Hinv') as Hstep.
    split; [apply (inv_desc _ _ _ Hinv')|].
    unfold spec_Next, Cursor_InRange in Hstep. fold moved in Hstep.
    rewrite !bool_decide_eq_true_2 in Hstep by lia. simpl in Hstep.
    rewrite bool_decide_eq_false_2 in Hstep by done. simpl in Hstep.
    destruct (Next direction reached) as [after|e]; [done|]. by subst.
Qed.

(** C7.  Whenever a Next on a node reached from Open materializes a row,
    the slot it returns holds, for every column c of that row, the value of
    Expression[c] after MakeExpandedObjectReadOnly was applied to it (with
    its null flag and the column's attlen), next to the null flag: no value
    is stored without having passed through the freeze. *)
Theorem stored_values_are_frozen
    (node : ValuesScan) (estate : EState) (eflags : Z)
    (scanstate : ValuesScanState) (calls : list Call)
    (outs : list (option (list (Datum * bool)))) (reached : ValuesScanState)
    (direction : ScanDirection) (after : ValuesScanState) :
  ExecInitValuesScan node estate eflags = OK scanstate ->
  list_length (values_lists node) <= INT_MAX ->
  run calls scanstate = OK (outs, reached) ->
  Next direction reached = OK after ->
  0 <= curr_idx after < array_len after ->
  let slot := ss_ScanTupleSlot (ss after) in
  let row := values_lists node !!! Z.to_nat (curr_idx after) in
  let tupdesc := tts_tupleDescriptor slot in
  tts_isempty slot = false
  /\ tupdesc = schema_of (values_lists node)
  /\ list_length row = natts tupdesc
  /\ forall (c : nat) (e : Expr),
      row !! c = Some e ->
      let r := eval_expr e (es_param_exec_vals estate) in
      tts_values slot !! c
      = Some (MakeExpandedObjectReadOnly r.1 r.2 (attlen (attrs tupdesc !!! c)))
      /\ tts_isnull slot !! c = Some r.2.
Proof.
  intros Hinit Hint Hrun Hnext Hin slot row tupdesc. subst tupdesc.
  pose proof (ExecInitValuesScan_inv _ _ _ _ Hinit Hint) as Hinv.
  destruct (spec_of_run _ _ _ _ _ _ Hinv Hrun) as [_ Hinv'].
  pose proof (Next_refines _ _ reached direction Hinv') as Hstep.
  rewrite Hnext in Hstep.
  destruct (spec_Next _ _ _ _) as [[moved out]|e] eqn:Hspec; [|done].
  destruct Hstep as (Hc & Hout & Hinv'' & _).
  apply spec_Next_OK in Hspec as [_ Hspec].
  destruct Hinv'' as [_ Hlen _ _ _ _ Hdesc Hvals Hnull Hnv _].
  rewrite <- Hc, <- Hlen in Hspec. unfold Cursor_InRange in Hspec.
  rewrite !bool_decide_eq_true_2 in Hspec by lia. simpl in Hspec.
  destruct Hspec as [Hwidth ->]. fold row in Hwidth, Hout. fold slot in Hout, Hdesc, Hvals, Hnull, Hnv.
  unfold fetch_row in Hout.
  destruct (tts_isempty slot) eqn:Hempty; [done|].
  rewrite Hnv in Hout by done. rewrite !take_ge in Hout by lia.
  injection Hout as Hzip.
  rewrite Hdesc. split_and!; [done..|].
  intros c e He r.
  assert (Hc' : zip (tts_values slot) (tts_isnull slot) !! c
                = Some (MakeExpandedObjectReadOnly r.1 r.2
                          (attlen (attrs (schema_of (values_lists node)) !!! c)),
                        r.2)).
  { rewrite Hzip. unfold MaterializeRow. by rewrite list_lookup_imap, He. }
  apply lookup_zip_with_Some in Hc' as (v & n & [= <- <-] & Hv & Hn). done.
Qed.

(** C9.  The cursor is -1 after ExecInitValuesScan and after
    ExecReScanValuesScan.  On every node reached from Open it lies in
    [-1, array_len], and a Next in either direction moves it by at most one
    and keeps it there: forward adds one only below array_len, backward
    subtracts one only above -1.  The slot returned holds a row exactly when
    the cursor, after the move, is in [0, array_len); Next can only fail
    while materializing such a row. *)
Theorem cursor_stays_in_range
    (node : ValuesScan) (estate : EState) (eflags : Z)
    (scanstate : ValuesScanState) :
  ExecInitValuesScan node estate eflags = OK scanstate ->
  list_length (values_lists node) <= INT_MAX ->
  curr_idx scanstate = -1
  /\ (forall any : ValuesScanState, curr_idx (ExecReScanValuesScan any) = -1)
  /\ forall (calls : list Call) outs reached,
      run calls scanstate = OK (outs, reached) ->
      -1 <= curr_idx reached <= array_len reached
      /\ array_len reached = list_length (values_lists node)
      /\ forall direction : ScanDirection,
          let moved :=
            Cursor_Advance direction (array_len reached) (curr_idx reached) in
          -1 <= moved <= array_len reached
          /\ Z.abs (moved - curr_idx reached) <= 1
          /\ match Next direction reached with
             | OK after =>
                 curr_idx after = moved
                 /\ array_len after = array_len reached
                 /\ (tts_isempty (ss_ScanTupleSlot (ss after)) = false
                     <-> 0 <= moved < array_len reached)
             | Fatal _ => 0 <= moved < array_len reached
             end.
Proof.
  intros Hinit Hint.
  pose proof (ExecInitValuesScan_inv _ _ _ _ Hinit Hint) as Hinv.
  destruct (ExecInitValuesScan_curr_idx _ _ _ _ Hinit) as [Hc _].
  split_and!; [done..|].
  intros calls outs reached Hrun.
  destruct (spec_of_run _ _ _ _ _ _ Hinv Hrun) as [_ Hinv'].
  destruct Hinv' as [_ Hlen _ Hcur _ _ _ _ _ _ _].
  split_and!; [lia..|done|].
  intros direction moved.
  assert (Hmoved : curr_idx (ValuesNext_advance
            (set_estate (set_es_direction direction (state (ps (ss reached))))
               reached)) = moved).
  { rewrite ValuesNext_advance_curr_idx; simpl; [done|lia..]. }
  split_and!.
  - apply Cursor_Advance_range. lia.
  - apply Cursor_Advance_range. lia.
  - unfold moved, Cursor_Advance.
    destruct direction; case_bool_decide; lia.
  - unfold Next.
    destruct (ValuesNext _) as [after|e] eqn:Hnext.
    + apply ValuesNext_frame in Hnext as (_ & _ & E3 & E4 & _ & _ & _ & E8 & _).
      rewrite Hmoved in E4. simpl in E3. rewrite E4, E3 in E8. done.
    + apply ValuesNext_Fatal in Hnext as [_ Hin]. by rewrite Hmoved in Hin.
Qed.


(** * Further properties of the node *)

(** ** Compiled rows and the arrays built at Open *)

Lemma ExecInitExprList_length (nodes : list Expr) parent serial :
  length (ExecInitExprList nodes parent serial) = length nodes.
Proof.
  rewrite <- (ExecInitExprList_exprs nodes parent serial) at 2.
  by rewrite length_fmap.
Qed.

Lemma ExecInitExprList_parent (nodes : list Expr) parent serial :
  Forall (fun st => xs_parent st = parent) (ExecInitExprList nodes parent serial).
Proof.
  revert serial. induction nodes as [|e nodes IH]; intros serial; simpl;
    constructor; [done | apply IH].
Qed.



Lemma eager_states_parent gate (vtl : list (list Expr)) serial :
  Forall (Forall (fun st => xs_parent st = Some ThisPlanState))
    (eager_states gate vtl serial).
Proof.
  revert serial. induction vtl as [|exprs vtl IH]; intros serial; simpl; [done|].
  destruct (gate && contain_subplans exprs); constructor;
    auto using ExecInitExprList_parent.
Qed.


(** X1.  Open turns the list of expression sublists into the array, cell by
    cell and in order, whatever the rows contain: exprlists is the row table,
    array_len is its length and exprstatelists has one entry per row.  The
    cursor is before the first row, the scan slot is cleared and sized to the
    width of row 0, and both evaluation scopes start empty with the executor
    state's parameters. *)
Theorem ExecInitValuesScan_builds_arrays
    (node : ValuesScan) (estate : EState) (eflags : Z)
    (scanstate : ValuesScanState) :
  ExecInitValuesScan node estate eflags = OK scanstate ->
  exprlists scanstate = values_lists node
  /\ array_len scanstate = list_length (values_lists node)
  /\ length (exprstatelists scanstate) = length (values_lists node)
  /\ curr_idx scanstate = -1
  /\ fetch_row (ss_ScanTupleSlot (ss scanstate)) = None
  /\ tts_tupleDescriptor (ss_ScanTupleSlot (ss scanstate))
     = schema_of (values_lists node)
  /\ length (tts_values (ss_ScanTupleSlot (ss scanstate)))
     = length (values_lists node !!! 0%nat)
  /\ length (tts_isnull (ss_ScanTupleSlot (ss scanstate)))
     = length (values_lists node !!! 0%nat)
  /\ rowcontext scanstate
     = {| ecxt_per_tuple_memory := [];
          ecxt_param_exec_vals := es_param_exec_vals estate |}
  /\ ps_ExprContext (ps (ss scanstate))
     = {| ecxt_per_tuple_memory := [];
          ecxt_param_exec_vals := es_param_exec_vals estate |}.
Proof.
  intros Hinit.
  pose proof (ExecInitValuesScan_spec node estate eflags) as Hspec.
  rewrite Hinit in Hspec. cbv zeta in Hspec.
  destruct Hspec as (_ & E1 & E2 & E3 & E4 & E5 & E6 & _ & E8 & _).
  rewrite E1, E2, E3, E4, E5, E6, E8, eager_states_length. simpl.
  unfold list_length. rewrite !length_replicate, Nat2Z.id. done.
Qed.


(** ** Memory: what a call allocates and where *)

Lemma ValuesNext_end_of_data node node' :
  ValuesNext node = OK node' ->
  ~ (0 <= curr_idx node' < array_len node') ->
  rowcontext node' = rowcontext node
  /\ state (ps (ss node')) = state (ps (ss node))
  /\ ss_ScanTupleSlot (ss node') = ExecClearTuple (ss_ScanTupleSlot (ss node)).
Proof.
  intros Hnext Hout.
  pose proof (ValuesNext_frame _ _ Hnext) as (_ & _ & E3 & E4 & _).
  revert Hnext. rewrite ValuesNext_unfold. cbv zeta.
  destruct (ValuesNext_advance_frame node) as (Hss & Hrc & _ & Hal & _).
  rewrite E4, E3, <- Hal in Hout.
  set (moved := ValuesNext_advance node) in *. clearbody moved.
  destruct (bool_decide (curr_idx moved >= 0)) eqn:H1;
    [destruct (bool_decide (curr_idx moved < array_len moved)) eqn:H2|]; simpl.
  - apply bool_decide_eq_true_1 in H1. apply bool_decide_eq_true_1 in H2. lia.
  - intros [= <-]. simpl. by rewrite Hss, Hrc.
  - intros [= <-]. simpl. by rewrite Hss, Hrc.
Qed.

Lemma ValuesNext_frame_more node node' :
  ValuesNext node = OK node' ->
  tts_tupleDescriptor (ss_ScanTupleSlot (ss node'))
  = tts_tupleDescriptor (ss_ScanTupleSlot (ss node))
  /\ es_direction (state (ps (ss node'))) = es_direction (state (ps (ss node)))
  /\ es_subplanstates (state (ps (ss node')))
     = es_subplanstates (state (ps (ss node)))
  /\ es_param_exec_vals (state (ps (ss node')))
     = es_param_exec_vals (state (ps (ss node)))
  /\ ecxt_param_exec_vals (rowcontext node')
     = ecxt_param_exec_vals (rowcontext node)
  /\ (es_next_serial (state (ps (ss node)))
      <= es_next_serial (state (ps (ss node'))))%nat.
Proof.
  rewrite ValuesNext_unfold. cbv zeta.
  destruct (ValuesNext_advance_frame node) as (Hss & Hrc & _ & _ & _).
  set (moved := ValuesNext_advance node) in *. clearbody moved.
  destruct (_ && _).
  - unfold ValuesNext_row. cbv zeta.
    destruct (exprstatelists moved !!! Z.to_nat (curr_idx moved)) as [|st l];
      case_bool_decide; simpl; try done;
      destruct (ValuesNext_foreach _ _ _ _ _ _) as [values isnull];
      intros [= <-]; simpl; (split_and!; [done..|lia]).
  - intros [= <-]. simpl. by rewrite Hss, Hrc.
Qed.

(** X5.  Whatever node the calls start from, a completed sequence of Next
    and ReScan calls leaves alone the row table, array_len, the
    expression-state array, the scope kept for the scan driver
    (ps_ExprContext), the schema of the scan slot, the sub-plan states and
    parameters of the executor state and the per-query memory; the
    allocation frontier only moves forward, and the node's result slot is
    untouched or cleared. *)
Theorem calls_leave_driver_state_alone (calls : list Call) :
  forall (node : ValuesScanState) outs node',
    run calls node = OK (outs, node') ->
    exprlists node' = exprlists node
    /\ array_len node' = array_len node
    /\ exprstatelists node' = exprstatelists node
    /\ ps_ExprContext (ps (ss node')) = ps_ExprContext (ps (ss node))
    /\ tts_tupleDescriptor (ss_ScanTupleSlot (ss node'))
       = tts_tupleDescriptor (ss_ScanTupleSlot (ss node))
    /\ es_subplanstates (state (ps (ss node')))
       = es_subplanstates (state (ps (ss node)))
    /\ es_param_exec_vals (state (ps (ss node')))
       = es_param_exec_vals (state (ps (ss node)))
    /\ ecxt_param_exec_vals (rowcontext node')
       = ecxt_param_exec_vals (rowcontext node)
    /\ es_query_cxt (state (ps (ss node')))
       = es_query_cxt (state (ps (ss node)))
    /\ (es_next_serial (state (ps (ss node)))
        <= es_next_serial (state (ps (ss node'))))%nat
    /\ (ps_ResultTupleSlot (ps (ss node')) = ps_ResultTupleSlot (ps (ss node))
        \/ ps_ResultTupleSlot (ps (ss node'))
           = ExecClearTuple (ps_ResultTupleSlot (ps (ss node)))).
Proof.
  induction calls as [|[direction|] calls IH]; intros node outs node'; simpl.
  - intros [= _ <-]. split_and!; [done..|lia|by left].
  - unfold Next. intros Hrun.
    apply bind_OK in Hrun as (node1 & Hnext & Hrun).
    apply bind_OK in Hrun as ([outs2 node2] & Hrun & [= _ <-]).
    pose proof (ValuesNext_frame _ _ Hnext) as (F1 & F2 & F3 & _ & F5 & F6 & F7 & _).
    apply ValuesNext_frame_more in Hnext as (G1 & _ & G3 & G4 & G5 & G6).
    apply IH in Hrun
      as (-> & -> & -> & -> & -> & -> & -> & -> & -> & Hserial & Hslot).
    simpl in *. rewrite F6 in Hslot. split_and!; [done..|lia|done].
  - intros Hrun.
    apply IH in Hrun
      as (-> & -> & -> & -> & -> & -> & -> & -> & -> & Hserial & Hslot).
    simpl in *. split_and!; [done..|].
    destruct Hslot as [->| ->]; by right.
Qed.

Lemma Next_per_tuple_memory rows env node direction node' :
  node_inv rows env node ->
  Next direction node = OK node' ->
  node_inv rows env node'
  /\ (one_transient_row rows (ecxt_per_tuple_memory (rowcontext node)) ->
      one_transient_row rows (ecxt_per_tuple_memory (rowcontext node'))).
Proof.
  intros Hinv Hnext.
  pose proof (Next_refines _ _ node direction Hinv) as Hstep.
  rewrite Hnext in Hstep.
  destruct (spec_Next _ _ _ _) as [[moved out]|e] eqn:Hspec; [|done].
  destruct Hstep as (Hc & _ & Hinv' & _). split; [done|].
  apply spec_Next_OK in Hspec as [_ Hspec]. rewrite <- Hc in Hspec.
  unfold Next in Hnext.
  pose proof (ValuesNext_frame _ _ Hnext) as (_ & _ & E3 & _ & _ & _ & _ & _ & F9).
  destruct (decide (0 <= curr_idx node' < array_len node')) as [Hin|Hout].
  - intros _. rewrite (F9 Hin). simpl.
    destruct (exprstatelists node !!! Z.to_nat (curr_idx node')); [|by left].
    right. exists (Z.to_nat (curr_idx node')), (es_next_serial (state (ps (ss node)))).
    rewrite (inv_array_len _ _ _ Hinv') in Hin.
    unfold Cursor_InRange in Hspec.
    rewrite !bool_decide_eq_true_2 in Hspec by lia. simpl in Hspec.
    destruct Hspec as [Hwidth _].
    rewrite (inv_exprlists _ _ _ Hinv).
    split_and!; [unfold list_length in Hin; lia|done..].
  - apply ValuesNext_end_of_data in Hnext as (-> & _); done.
Qed.

Lemma run_per_tuple_memory rows env calls : forall node outs node',
  node_inv rows env node ->
  one_transient_row rows (ecxt_per_tuple_memory (rowcontext node)) ->
  run calls node = OK (outs, node') ->
  one_transient_row rows (ecxt_per_tuple_memory (rowcontext node')).
Proof.
  induction calls as [|[direction|] calls IH]; intros node outs node' Hinv Hmem;
    simpl.
  - by intros [= _ <-].
  - intros Hrun.
    apply bind_OK in Hrun as (node1 & Hnext & Hrun).
    apply bind_OK in Hrun as ([outs2 node2] & Hrun & [= _ <-]).
    destruct (Next_per_tuple_memory _ _ _ _ _ Hinv Hnext) as [Hinv1 Hmem1].
    eapply IH; eauto.
  - intros Hrun.
    apply (IH _ _ _ (ExecReScanValuesScan_inv _ _ _ Hinv) Hmem Hrun).
Qed.

Lemma ExecInitValuesScan_rowcontext_empty
    (node : ValuesScan) (estate : EState) (eflags : Z)
    (scanstate : ValuesScanState) :
  ExecInitValuesScan node estate eflags = OK scanstate ->
  ecxt_per_tuple_memory (rowcontext scanstate) = [].
Proof.
  intros Hinit.
  pose proof (ExecInitValuesScan_spec node estate eflags) as Hspec.
  rewrite Hinit in Hspec. cbv zeta in Hspec.
  destruct Hspec as (_ & _ & _ & _ & _ & E5 & _). by rewrite E5.
Qed.

(** X4.  Per-tuple memory never accumulates over a long values list: on
    every node reached from Open the row scope holds nothing or the
    transient expression states of exactly one row, so at most C states
    (the width of row 0), none of them linked to a plan state. *)
Theorem per_tuple_memory_holds_at_most_one_row
    (node : ValuesScan) (estate : EState) (eflags : Z)
    (scanstate : ValuesScanState) (calls : list Call)
    (outs : list (option (list (Datum * bool)))) (reached : ValuesScanState) :
  ExecInitValuesScan node estate eflags = OK scanstate ->
  list_length (values_lists node) <= INT_MAX ->
  run calls scanstate = OK (outs, reached) ->
  let mem := ecxt_per_tuple_memory (rowcontext reached) in
  one_transient_row (values_lists node) mem
  /\ (length mem <= length (values_lists node !!! 0%nat))%nat
  /\ Forall (fun st => xs_parent st = None) mem.
Proof.
  intros Hinit Hint Hrun mem.
  pose proof (ExecInitValuesScan_inv _ _ _ _ Hinit Hint) as Hinv.
  pose proof (ExecInitValuesScan_rowcontext_empty node estate eflags scanstate Hinit)
    as Hrc.
  assert (Hmem : one_transient_row (values_lists node) mem).
  { eapply run_per_tuple_memory; [exact Hinv| |exact Hrun].
    rewrite Hrc. by left. }
  split; [done|].
  destruct Hmem as [->|(i & serial & _ & Hwidth & ->)]; simpl.
  - split; [lia|done].
  - rewrite ExecInitExprList_length. split; [|apply ExecInitExprList_parent].
    unfold list_length, schema_of in Hwidth. simpl in Hwidth.
    unfold list_length in Hwidth. lia.
Qed.

(** X3.  The expression states of the array stay what Open made them: on
    every node reached from Open, each state in exprstatelists is linked to
    the node's plan state and lives in per-query memory, and none of them
    lives in the per-tuple memory of the row scope, so resetting that scope
    for the next row never discards a state the array still points to. *)
Theorem compiled_states_outlive_row_scope
    (node : ValuesScan) (estate : EState) (eflags : Z)
    (scanstate : ValuesScanState) (calls : list Call)
    (outs : list (option (list (Datum * bool)))) (reached : ValuesScanState) :
  ExecInitValuesScan node estate eflags = OK scanstate ->
  list_length (values_lists node) <= INT_MAX ->
  run calls scanstate = OK (outs, reached) ->
  forall (i : nat) (l : list ExprState) (st : ExprState),
    exprstatelists reached !! i = Some l ->
    st ∈ l ->
    xs_parent st = Some ThisPlanState
    /\ st ∈ es_query_cxt (state (ps (ss reached)))
    /\ st ∉ ecxt_per_tuple_memory (rowcontext reached).
Proof.
  intros Hinit Hint Hrun i l st Hl Hst.
  pose proof (ExecInitValuesScan_inv _ _ _ _ Hinit Hint) as Hinv.
  pose proof (ExecInitValuesScan_rowcontext_empty _ _ _ _ Hinit) as Hrc.
  assert (Hmem : one_transient_row (values_lists node)
                   (ecxt_per_tuple_memory (rowcontext reached))).
  { eapply run_per_tuple_memory; [exact Hinv| |exact Hrun]. rewrite Hrc. by left. }
  apply run_frame in Hrun as (E1 & _ & _ & E4).
  pose proof (ExecInitValuesScan_spec node estate eflags) as Hspec.
  rewrite Hinit in Hspec. cbv zeta in Hspec.
  destruct Hspec as (_ & _ & Hesl & _ & _ & _ & _ & _ & _ & _ & _ & _ & Hcxt & _).
  rewrite E1 in Hl. rewrite E4, Hcxt.
  assert (Hparent : xs_parent st = Some ThisPlanState).
  { pose proof (eager_states_parent
                  (bool_decide (es_subplanstates estate <> []))
                  (values_lists node) (es_next_serial estate)) as Hall.
    rewrite <- Hesl in Hall. rewrite Forall_lookup in Hall.
    specialize (Hall _ _ Hl). rewrite Forall_forall in Hall. by apply Hall. }
  split_and!; [done| |].
  - apply elem_of_app. right. rewrite <- Hesl.
    apply list_elem_of_In, in_concat. exists l. split.
    + apply list_elem_of_In. by eapply list_elem_of_lookup_2.
    + by apply list_elem_of_In.
  - destruct Hmem as [->|(j & serial & _ & _ & ->)]; [by apply not_elem_of_nil|].
    intros Hin.
    pose proof (ExecInitExprList_parent (values_lists node !!! j) None serial)
      as Hnone.
    rewrite Forall_forall in Hnone. specialize (Hnone _ Hin). congruence.
Qed.

(** ** Reversing direction, and rows of the wrong width *)

Lemma spec_Next_row_at rows env direction (current : Z) :
  uniform_width rows ->
  spec_Next rows env direction current
  = OK (Cursor_Advance direction (list_length rows) current,
        row_at rows env (Cursor_Advance direction (list_length rows) current)).
Proof.
  intros Huni. unfold row_at.
  set (moved := Cursor_Advance direction (list_length rows) current).
  destruct (decide (0 <= moved < list_length rows)) as [Hin|Hout].
  - rewrite (spec_Next_in_range rows env) by done. fold moved.
    unfold Cursor_InRange. by rewrite !bool_decide_eq_true_2 by lia.
  - rewrite (spec_Next_out_of_range rows env) by done. fold moved.
    unfold Cursor_InRange.
    destruct (bool_decide (0 <= moved)) eqn:H1; [|done].
    destruct (bool_decide (moved < list_length rows)) eqn:H2; [|done].
    apply bool_decide_eq_true_1 in H1. apply bool_decide_eq_true_1 in H2. lia.
Qed.

(** X6.  Reversing direction undoes the last move.  On a node reached from
    Open over a uniform table, with the cursor at c: if c is not past-last,
    Next(Forward) then Next(Backward) comes back to c and the second call
    returns the row at c (the end marker when c is before-first); if c is
    not before-first, Next(Backward) then Next(Forward) comes back to c and
    returns the row at c (the end marker when c is past-last). *)
Theorem reversing_direction_returns_to_the_row
    (node : ValuesScan) (estate : EState) (eflags : Z)
    (scanstate : ValuesScanState) (calls : list Call)
    (outs : list (option (list (Datum * bool)))) (reached : ValuesScanState) :
  ExecInitValuesScan node estate eflags = OK scanstate ->
  uniform_width (values_lists node) ->
  list_length (values_lists node) <= INT_MAX ->
  run calls scanstate = OK (outs, reached) ->
  let rows := values_lists node in
  let env := es_param_exec_vals estate in
  let c := curr_idx reached in
  (c < list_length rows ->
   exists back,
     run [CallNext ForwardScanDirection; CallNext BackwardScanDirection] reached
     = OK ([row_at rows env (c + 1); row_at rows env c], back)
     /\ curr_idx back = c)
  /\ (0 <= c ->
      exists back,
        run [CallNext BackwardScanDirection; CallNext ForwardScanDirection] reached
        = OK ([row_at rows env (c - 1); row_at rows env c], back)
        /\ curr_idx back = c).
Proof.
  intros Hinit Huni Hint Hrun rows env c.
  pose proof (ExecInitValuesScan_inv _ _ _ _ Hinit Hint) as Hinv.
  destruct (spec_of_run _ _ _ _ _ _ Hinv Hrun) as [_ Hinv'].
  pose proof (inv_cursor _ _ _ Hinv') as Hcur.
  rewrite (inv_array_len _ _ _ Hinv') in Hcur. fold c rows in Hcur.
  split; intros Hc.
  - destruct (run_of_spec rows env
                [CallNext ForwardScanDirection; CallNext BackwardScanDirection]
                reached [row_at rows env (c + 1); row_at rows env c] c Hinv')
      as (back & Hback & Hcb & _); [|eauto].
    cbn [spec_run]. rewrite !spec_Next_row_at by done.
    cbn [mbind Result_bind fst snd]. rewrite !spec_Next_row_at by done.
    cbn [mbind Result_bind fst snd]. fold c.
    assert (E1 : Cursor_Advance ForwardScanDirection (list_length rows) c = c + 1).
    { unfold Cursor_Advance. rewrite bool_decide_eq_true_2; lia. }
    rewrite E1.
    assert (E2 : Cursor_Advance BackwardScanDirection (list_length rows) (c + 1) = c).
    { unfold Cursor_Advance. rewrite bool_decide_eq_true_2; lia. }
    by rewrite E2.
  - destruct (run_of_spec rows env
                [CallNext BackwardScanDirection; CallNext ForwardScanDirection]
                reached [row_at rows env (c - 1); row_at rows env c] c Hinv')
      as (back & Hback & Hcb & _); [|eauto].
    cbn [spec_run]. rewrite !spec_Next_row_at by done.
    cbn [mbind Result_bind fst snd]. rewrite !spec_Next_row_at by done.
    cbn [mbind Result_bind fst snd]. fold c.
    assert (E1 : Cursor_Advance BackwardScanDirection (list_length rows) c = c - 1).
    { unfold Cursor_Advance. rewrite bool_decide_eq_true_2; lia. }
    rewrite E1.
    assert (E2 : Cursor_Advance ForwardScanDirection (list_length rows) (c - 1) = c).
    { unfold Cursor_Advance. rewrite bool_decide_eq_true_2; lia. }
    by rewrite E2.
Qed.

Lemma spec_Next_width_ok rows env direction (current : Z) :
  let moved := Cursor_Advance direction (list_length rows) current in
  0 <= moved < list_length rows ->
  list_length (rows !!! Z.to_nat moved) = natts (schema_of rows) ->
  spec_Next rows env direction current
  = OK (moved, Some (MaterializeRow (schema_of rows) env (rows !!! Z.to_nat moved))).
Proof.
  intros moved Hin Hwidth. unfold spec_Next, Cursor_InRange. fold moved.
  rewrite !bool_decide_eq_true_2 by (done || lia). done.
Qed.

Lemma spec_Next_width_bad rows env direction (current : Z) :
  let moved := Cursor_Advance direction (list_length rows) current in
  0 <= moved < list_length rows ->
  list_length (rows !!! Z.to_nat moved) <> natts (schema_of rows) ->
  spec_Next rows env direction current = Fatal FailedAssertion.
Proof.
  intros moved Hin Hwidth. unfold spec_Next, Cursor_InRange. fold moved.
  rewrite !bool_decide_eq_true_2 by lia. simpl.
  by rewrite bool_decide_eq_false_2.
Qed.

(** Forward calls over rows that all have the right width. *)
Lemma spec_run_forward_good rows env (k : nat) : forall (current : Z),
  -1 <= current ->
  current + 1 + Z.of_nat k <= list_length rows ->
  Forall (fun row => list_length row = natts (schema_of rows))
    (take k (drop (Z.to_nat (current + 1)) rows)) ->
  spec_run rows env (replicate k (CallNext ForwardScanDirection)) current
  = OK (Some ∘ MaterializeRow (schema_of rows) env
          <$> take k (drop (Z.to_nat (current + 1)) rows),
        current + Z.of_nat k).
Proof.
  induction k as [|k IH]; intros current Hlo Hhi Hgood.
  - simpl. do 2 f_equal. lia.
  - cbn [replicate spec_run]. unfold list_length in *.
    destruct (lookup_lt_is_Some_2 rows (Z.to_nat (current + 1))) as [row Hrow];
      [lia|].
    rewrite (drop_S _ _ _ Hrow) in Hgood |- *. cbn [take] in Hgood |- *.
    apply Forall_cons in Hgood as [Hwidth Hgood].
    assert (Hmoved : Cursor_Advance ForwardScanDirection
                       (Z.of_nat (length rows)) current = current + 1).
    { unfold Cursor_Advance. rewrite bool_decide_eq_true_2; lia. }
    rewrite (spec_Next_width_ok rows env); unfold list_length; rewrite Hmoved;
      [|lia|by rewrite (list_lookup_total_correct _ _ _ Hrow)].
    cbn [mbind Result_bind fst snd].
    replace (S (Z.to_nat (current + 1))) with (Z.to_nat (current + 1 + 1))
      in Hgood |- * by lia.
    rewrite IH by (done || lia). cbn [mbind Result_bind fst snd fmap list_fmap].
    rewrite (list_lookup_total_correct _ _ _ Hrow).
    do 2 f_equal. lia.
Qed.

Lemma spec_run_app rows env (calls1 calls2 : list Call) : forall (current : Z),
  spec_run rows env (calls1 ++ calls2) current
  = r1 ← spec_run rows env calls1 current;
    r2 ← spec_run rows env calls2 r1.2;
    OK (r1.1 ++ r2.1, r2.2).
Proof.
  induction calls1 as [|[direction|] calls1 IH]; intros current; simpl.
  - by destruct (spec_run rows env calls2 current) as [[]|].
  - destruct (spec_Next rows env direction current) as [[moved out]|e];
      simpl; [|done].
    rewrite IH.
    destruct (spec_run rows env calls1 moved) as [[outs1 c1]|e]; simpl; [|done].
    by destruct (spec_run rows env calls2 c1) as [[outs2 c2]|e].
  - apply IH.
Qed.

Lemma run_Fatal_of_spec rows env calls node e :
  node_inv rows env node ->
  spec_run rows env calls (curr_idx node) = Fatal e ->
  run calls node = Fatal e.
Proof.
  intros Hinv Hspec. pose proof (run_refines rows env calls node Hinv) as H.
  rewrite Hspec in H.
  destruct (run calls node) as [[outs1 node1]|e1]; [done | by subst].
Qed.

(** X7.  Open does not validate row widths; the check is made row by row,
    when a row is materialized.  On a table whose rows before index j have
    the width C of row 0 and whose row j has not, Open succeeds, j
    Next(Forward) calls return the first j rows, and the next
    Next(Forward) stops with the failed assertion. *)
Theorem width_is_checked_when_the_row_is_reached
    (node : ValuesScan) (estate : EState) (eflags : Z) (j : nat) :
  list_length (values_lists node) <= INT_MAX ->
  (j < length (values_lists node))%nat ->
  Forall (fun row => list_length row = natts (schema_of (values_lists node)))
    (take j (values_lists node)) ->
  list_length (values_lists node !!! j) <> natts (schema_of (values_lists node)) ->
  exists scanstate,
    ExecInitValuesScan node estate eflags = OK scanstate
    /\ (exists reached,
          run (replicate j (CallNext ForwardScanDirection)) scanstate
          = OK (Some ∘ MaterializeRow (schema_of (values_lists node))
                         (es_param_exec_vals estate)
                  <$> take j (values_lists node),
                reached))
    /\ run (replicate (S j) (CallNext ForwardScanDirection)) scanstate
       = Fatal FailedAssertion.
Proof.
  intros Hint Hj Hgood Hbad.
  destruct (ExecInitValuesScan_OK node estate eflags) as [scanstate Hinit].
  { intros Hnil. rewrite Hnil in Hj. simpl in Hj. lia. }
  pose proof (ExecInitValuesScan_inv _ _ _ _ Hinit Hint) as Hinv.
  destruct (ExecInitValuesScan_curr_idx _ _ _ _ Hinit) as [Hc _].
  assert (Hprefix :
            spec_run (values_lists node) (es_param_exec_vals estate)
              (replicate j (CallNext ForwardScanDirection)) (-1)
            = OK (Some ∘ MaterializeRow (schema_of (values_lists node))
                           (es_param_exec_vals estate)
                    <$> take j (values_lists node), -1 + Z.of_nat j)).
  { rewrite spec_run_forward_good; [done|lia|unfold list_length; lia|done]. }
  exists scanstate. split_and!; [done| |].
  - rewrite <- Hc in Hprefix at 1.
    destruct (run_of_spec _ _ _ _ _ _ Hinv Hprefix) as (reached & Hrun & _).
    eauto.
  - apply (run_Fatal_of_spec _ _ _ _ _ Hinv). rewrite Hc.
    rewrite replicate_S_end, spec_run_app, Hprefix.
    cbn [mbind Result_bind fst snd spec_run].
    rewrite (spec_Next_width_bad _ (es_param_exec_vals estate)); [done| |].
    + unfold Cursor_Advance, list_length.
      rewrite bool_decide_eq_true_2 by lia. lia.
    + unfold Cursor_Advance, list_length.
      rewrite bool_decide_eq_true_2 by lia.
      by replace (Z.to_nat (-1 + Z.of_nat j + 1)) with j by lia.
Qed.

(** X8.  What the calls return depends on the row table, the parameter
    values and the cursor, and on nothing else: two nodes opened on the same
    row table under the same parameter values (whatever the rest of their
    executor states, so whether or not rows were compiled at Open), brought
    by any two call histories to the same cursor position, return the same
    rows, end markers or fatal failure on every further call sequence. *)
Theorem outputs_depend_on_cursor_only
    (node : ValuesScan) (estate1 estate2 : EState) (eflags1 eflags2 : Z)
    (scanstate1 scanstate2 : ValuesScanState) (calls1 calls2 : list Call)
    (outs1 outs2 : list (option (list (Datum * bool))))
    (reached1 reached2 : ValuesScanState) :
  ExecInitValuesScan node estate1 eflags1 = OK scanstate1 ->
  ExecInitValuesScan node estate2 eflags2 = OK scanstate2 ->
  es_param_exec_vals estate1 = es_param_exec_vals estate2 ->
  list_length (values_lists node) <= INT_MAX ->
  run calls1 scanstate1 = OK (outs1, reached1) ->
  run calls2 scanstate2 = OK (outs2, reached2) ->
  curr_idx reached1 = curr_idx reached2 ->
  forall calls : list Call,
    outputs_of (run calls reached1) = outputs_of (run calls reached2).
Proof.
  intros Hinit1 Hinit2 Henv Hint Hrun1 Hrun2 Hc calls.
  pose proof (ExecInitValuesScan_inv _ _ _ _ Hinit1 Hint) as Hinv1.
  pose proof (ExecInitValuesScan_inv _ _ _ _ Hinit2 Hint) as Hinv2.
  rewrite <- Henv in Hinv2.
  destruct (spec_of_run _ _ _ _ _ _ Hinv1 Hrun1) as [_ Hinv1'].
  destruct (spec_of_run _ _ _ _ _ _ Hinv2 Hrun2) as [_ Hinv2'].
  by apply (outputs_of_same_cursor (values_lists node) (es_param_exec_vals estate1)).
Qed.

(** X9.  A rescan of a node that has not been scanned yet changes nothing:
    on a freshly opened node ExecReScanValuesScan returns the node as it is.
    On any node, a second rescan right after a first changes nothing. *)
Theorem rescan_of_fresh_node_is_identity
    (node : ValuesScan) (estate : EState) (eflags : Z)
    (scanstate : ValuesScanState) :
  ExecInitValuesScan node estate eflags = OK scanstate ->
  ExecReScanValuesScan scanstate = scanstate
  /\ forall any : ValuesScanState,
      ExecReScanValuesScan (ExecReScanValuesScan any) = ExecReScanValuesScan any.
Proof.
  intros Hinit. split; [|done].
  pose proof (ExecInitValuesScan_spec node estate eflags) as Hspec.
  rewrite Hinit in Hspec. cbv zeta in Hspec.
  destruct Hspec as (_ & _ & _ & _ & Hc & _ & _ & Hslot & _).
  destruct scanstate as [[[est rs pec] slot] rc el al ci esl].
  simpl in Hc, Hslot. subst. reflexivity.
Qed.

Lemma spec_run_widths rows env calls : forall (current : Z) outs current',
  spec_run rows env calls current = OK (outs, current') ->
  Forall (fun out => forall row, out = Some row ->
                     list_length row = natts (schema_of rows)) outs.
Proof.
  induction calls as [|[direction|] calls IH]; intros current outs current'; simpl.
  - by intros [= <- _].
  - intros Hrun.
    apply bind_OK in Hrun as ([moved out] & Hnext & Hrun).
    apply bind_OK in Hrun as ([outs2 c2] & Hrun & [= <- _]).
    simpl in *. constructor; [|by eapply IH].
    apply spec_Next_OK in Hnext as [_ Hnext].
    destruct (Cursor_InRange _ _); [|by subst].
    destruct Hnext as [Hwidth ->]. intros row [= <-].
    unfold MaterializeRow, list_length in *. by rewrite length_imap.
  - apply IH.
Qed.

(** X10.  Every row any call hands out has exactly C columns, the width of
    row 0, and the value and null-flag arrays of the scan slot keep that
    length on every node reached from Open: no call that completes reads or
    writes a column outside 0..C-1. *)
Theorem rows_handed_out_have_the_schema_width
    (node : ValuesScan) (estate : EState) (eflags : Z)
    (scanstate : ValuesScanState) (calls : list Call)
    (outs : list (option (list (Datum * bool)))) (reached : ValuesScanState) :
  ExecInitValuesScan node estate eflags = OK scanstate ->
  list_length (values_lists node) <= INT_MAX ->
  run calls scanstate = OK (outs, reached) ->
  Forall (fun out => forall row, out = Some row ->
                     length row = length (values_lists node !!! 0%nat)) outs
  /\ length (tts_values (ss_ScanTupleSlot (ss reached)))
     = length (values_lists node !!! 0%nat)
  /\ length (tts_isnull (ss_ScanTupleSlot (ss reached)))
     = length (values_lists node !!! 0%nat)
  /\ natts (tts_tupleDescriptor (ss_ScanTupleSlot (ss reached)))
     = list_length (values_lists node !!! 0%nat).
Proof.
  intros Hinit Hint Hrun.
  pose proof (ExecInitValuesScan_inv _ _ _ _ Hinit Hint) as Hinv.
  destruct (spec_of_run _ _ _ _ _ _ Hinv Hrun) as [Hspec Hinv'].
  apply spec_run_widths in Hspec.
  destruct Hinv' as [_ _ _ _ _ _ Hdesc Hvals Hnull _ _].
  rewrite Hdesc, Hvals, Hnull. simpl. unfold list_length in *.
  rewrite Nat2Z.id. split_and!; [|done..].
  eapply Forall_impl; [exact Hspec|]. simpl.
  intros out Hout row ->. specialize (Hout row eq_refl). simpl in Hout.
  unfold list_length in Hout. lia.
Qed.

End ValuesScanFacts.

(** * The scenarios, on the concrete engine *)

Import Scenario.

Lemma scan_from rows subplanstates params calls scanstate :
  ExecInitValuesScan (plan rows) (estate subplanstates params) 0 = OK scanstate ->
  scan rows subplanstates params calls = outputs_of (run calls scanstate).
Proof. intros Hinit. unfold scan. by rewrite Hinit. Qed.

Lemma scan_state_run rows subplanstates params calls scanstate reached :
  ExecInitValuesScan (plan rows) (estate subplanstates params) 0 = OK scanstate ->
  scan_state rows subplanstates params calls = OK reached ->
  exists outs, run calls scanstate = OK (outs, reached).
Proof.
  intros Hinit. unfold scan_state. rewrite Hinit. simpl.
  destruct (run calls scanstate) as [[outs r]|e]; simpl; [|done].
  intros [= ->]. eauto.
Qed.

Lemma run_one_Next direction (node : ValuesScanState) outs after :
  run [CallNext direction] node = OK (outs, after) ->
  Next direction node = OK after.
Proof.
  simpl. destruct (Next direction node) as [node'|e]; simpl; [|done].
  by intros [= _ ->].
Qed.

(** Scenario A: Open; Next(Forward) -> (2, "x"); Next(Forward) -> (4, "y");
    Next(Forward) -> end marker. *)
Lemma forward_scan_scenario_A :
  scan table [] [] (replicate 3 (CallNext ForwardScanDirection))
  = OK [Some [(IntDatum 2, false); (TextDatum "x", false)];
        Some [(IntDatum 4, false); (TextDatum "y", false)];
        None].
Proof.
  destruct (forward_scan_rows_then_end_markers (plan table) (estate [] []) 0)
    as (scanstate & Hinit & Hscan).
  - simpl. discriminate.
  - repeat constructor.
  - vm_compute. discriminate.
  - destruct (Hscan 3%nat) as (scanstate' & Hrun & _).
    unfold scan. rewrite Hinit. cbn [mbind Result_bind].
    rewrite Hrun. reflexivity.
Defined.

(** At N = 0 there is no fresh node to scan from: C1 as stated, with the
    empty row table among its row tables, does not hold. *)
Lemma forward_scan_empty_table_has_no_open :
  uniform_width (values_lists (plan []))
  /\ list_length (values_lists (plan [])) <= INT_MAX
  /\ ~ exists scanstate,
        ExecInitValuesScan (plan []) (estate [] []) 0 = OK scanstate
        /\ forall k : nat,
            exists scanstate',
              run (replicate k (CallNext ForwardScanDirection)) scanstate
              = OK ((Some ∘ MaterializeRow (schema_of (values_lists (plan [])))
                              (es_param_exec_vals (estate [] []))
                       <$> take k (values_lists (plan [])))
                      ++ replicate (k - length (values_lists (plan []))) None,
                    scanstate')
              /\ curr_idx scanstate'
                 = Z.min (Z.of_nat k - 1) (list_length (values_lists (plan []))).
Proof.
  split_and!.
  - constructor.
  - vm_compute. discriminate.
  - intros (scanstate & Hinit & _). discriminate Hinit.
Qed.

(** Scenario B as the code runs it: from a fresh Open, Next(Backward) returns
    the end marker at once, not (4, "y"). *)
Lemma backward_scan_fresh_open_returns_end_marker :
  scan table [] [] (replicate 3 (CallNext BackwardScanDirection))
  = OK [None; None; None]
  /\ scan table [] [] (replicate 3 (CallNext BackwardScanDirection))
     <> OK [Some [(IntDatum 4, false); (TextDatum "y", false)];
            Some [(IntDatum 2, false); (TextDatum "x", false)];
            None].
Proof. split; [reflexivity | discriminate]. Qed.

(** Scenario B once the forward scan is exhausted: (4, "y"), (2, "x"), end
    marker; and from the fresh node, end markers only. *)
Lemma backward_scan_scenario_B :
  exists scanstate outs exhausted,
    ExecInitValuesScan (plan table) (estate [] []) 0 = OK scanstate
    /\ outputs_of (run (replicate 3 (CallNext BackwardScanDirection)) scanstate)
       = OK [None; None; None]
    /\ run (replicate 3 (CallNext ForwardScanDirection)) scanstate
       = OK (outs, exhausted)
    /\ outputs_of (run (replicate 3 (CallNext BackwardScanDirection)) exhausted)
       = OK [Some [(IntDatum 4, false); (TextDatum "y", false)];
             Some [(IntDatum 2, false); (TextDatum "x", false)];
             None].
Proof.
  destruct (ExecInitValuesScan (plan table) (estate [] []) 0)
    as [scanstate|e] eqn:Hinit; [|discriminate Hinit].
  destruct (backward_scan_from_either_end (plan table) (estate [] []) 0 scanstate)
    as [Hfresh Hpast].
  - exact Hinit.
  - repeat constructor.
  - vm_compute. discriminate.
  - destruct (Hfresh 3%nat) as (s1 & Hrun1 & _).
    destruct (Hpast 3%nat) as (outs & exhausted & Hrun2 & _ & Hback).
    { simpl. lia. }
    destruct (Hback 3%nat) as (s3 & Hrun3 & _).
    exists scanstate, outs, exhausted.
    split_and!; [done | by rewrite Hrun1 | done | by rewrite Hrun3].
Defined.

(** After three Next(Forward) on the scenario table the scan is exhausted;
    Next(Backward) then returns (4, "y") with the cursor at 1. *)
Lemma backward_after_exhaustion_scenario :
  exists scanstate outs exhausted resumed,
    ExecInitValuesScan (plan table) (estate [] []) 0 = OK scanstate
    /\ run (replicate 3 (CallNext ForwardScanDirection)) scanstate
       = OK (outs, exhausted)
    /\ curr_idx exhausted = 2
    /\ Next BackwardScanDirection exhausted = OK resumed
    /\ curr_idx resumed = 1
    /\ fetch_row (ss_ScanTupleSlot (ss resumed))
       = Some [(IntDatum 4, false); (TextDatum "y", false)].
Proof.
  destruct (ExecInitValuesScan (plan table) (estate [] []) 0)
    as [scanstate|e] eqn:Hinit; [|discriminate Hinit].
  destruct (backward_after_forward_exhaustion_resumes
              (plan table) (estate [] []) 0 scanstate 3)
    as (outs & exhausted & Hrun & _ & Hc & resumed & Hnext & Hc' & Hrow).
  - exact Hinit.
  - repeat constructor.
  - vm_compute. discriminate.
  - simpl. lia.
  - exists scanstate, outs, exhausted, resumed. split_and!; done.
Defined.



(** Two rows forward, one back, a rescan: the replay of a full forward scan
    returns what it returns on the fresh node. *)
Lemma rescan_replay_scenario :
  exists scanstate outs used,
    ExecInitValuesScan (plan table) (estate [] []) 0 = OK scanstate
    /\ run [CallNext ForwardScanDirection; CallNext ForwardScanDirection;
            CallNext BackwardScanDirection] scanstate = OK (outs, used)
    /\ outputs_of (run (replicate 3 (CallNext ForwardScanDirection))
                     (ExecReScanValuesScan used))
       = OK [Some [(IntDatum 2, false); (TextDatum "x", false)];
             Some [(IntDatum 4, false); (TextDatum "y", false)];
             None]
    /\ exprstatelists (ExecReScanValuesScan used) = exprstatelists scanstate.
Proof.
  destruct (ExecInitValuesScan_OK (plan table) (estate [] []) 0 ltac:(done))
    as [scanstate Hinit].
  assert (Hused : exists used,
             scan_state table [] []
               [CallNext ForwardScanDirection; CallNext ForwardScanDirection;
                CallNext BackwardScanDirection] = OK used)
    by (vm_compute; eexists; reflexivity).
  destruct Hused as [used Hused].
  destruct (scan_state_run _ _ _ _ _ _ Hinit Hused) as [outs Hrun].
  assert (Hint : list_length (values_lists (plan table)) <= INT_MAX)
    by (vm_compute; discriminate).
  destruct (rescan_replays_fresh_open (plan table) (estate [] []) 0 _ _ _ _
              (estate [] []) 0 scanstate Hinit Hint Hrun Hinit eq_refl)
    as (Hreplay & Hsame & _).
  exists scanstate, outs, used.
  split; [exact Hinit|]. split; [exact Hrun|]. split; [|exact Hsame].
  rewrite Hreplay, <- (scan_from _ _ _ _ _ Hinit).
  vm_compute. reflexivity.
Defined.

(** A row whose first column evaluates to a read-write expanded value: the
    slot holds it read-only. *)
Lemma stored_values_scenario :
  exists scanstate after,
    ExecInitValuesScan (plan [[ArrayAppend "a"; IntConst 1]]) (estate [] []) 0
    = OK scanstate
    /\ Next ForwardScanDirection scanstate = OK after
    /\ tts_values (ss_ScanTupleSlot (ss after)) !! 0%nat
       = Some (ExpandedDatum true "a")
    /\ tts_values (ss_ScanTupleSlot (ss after)) !! 1%nat = Some (IntDatum 1).
Proof.
  destruct (ExecInitValuesScan_OK (plan [[ArrayAppend "a"; IntConst 1]])
              (estate [] []) 0 ltac:(done)) as [scanstate Hinit].
  assert (Hafter : exists after,
             scan_state [[ArrayAppend "a"; IntConst 1]] [] []
               [CallNext ForwardScanDirection] = OK after)
    by (vm_compute; eexists; reflexivity).
  destruct Hafter as [after Hafter].
  destruct (scan_state_run _ _ _ _ _ _ Hinit Hafter) as [outs Hrun].
  apply run_one_Next in Hrun.
  assert (Hc : scan_state [[ArrayAppend "a"; IntConst 1]] [] []
                 [CallNext ForwardScanDirection]
               ≫= (fun r => OK (curr_idx r, array_len r)) = OK (0, 1))
    by (vm_compute; reflexivity).
  rewrite Hafter in Hc. injection Hc as Hc Hlen.
  assert (Hint : list_length (values_lists (plan [[ArrayAppend "a"; IntConst 1]]))
                 <= INT_MAX) by (vm_compute; discriminate).
  destruct (stored_values_are_frozen _ (estate [] []) 0 _ [] [] _
              ForwardScanDirection _ Hinit Hint eq_refl Hrun)
    as (_ & Hdesc & _ & Hcols).
  { rewrite Hc, Hlen. lia. }
  cbv zeta in Hcols. rewrite Hc, Hdesc in Hcols.
  destruct (Hcols 0%nat (ArrayAppend "a") eq_refl) as [Hv0 _].
  destruct (Hcols 1%nat (IntConst 1) eq_refl) as [Hv1 _].
  exists scanstate, after.
  split; [exact Hinit|]. split; [exact Hrun|]. split; [exact Hv0|exact Hv1].
Defined.

(** The uniform scenario table never fails; on a table whose second row is
    wider than the first, the Next that lands on it fails its assertion. *)
Lemma column_count_scenario :
  (exists scanstate outs scanstate',
      ExecInitValuesScan (plan table) (estate [] []) 0 = OK scanstate
      /\ run [CallNext ForwardScanDirection; CallReScan;
              CallNext ForwardScanDirection; CallNext ForwardScanDirection;
              CallNext BackwardScanDirection] scanstate
         = OK (outs, scanstate'))
  /\ (exists scanstate outs reached,
        ExecInitValuesScan (plan [[IntConst 1]; [IntConst 2; IntConst 3]])
          (estate [] []) 0 = OK scanstate
        /\ run [CallNext ForwardScanDirection] scanstate = OK (outs, reached)
        /\ Next ForwardScanDirection reached = Fatal FailedAssertion).
Proof.
  split.
  - destruct (ExecInitValuesScan_OK (plan table) (estate [] []) 0 ltac:(done))
      as [scanstate Hinit].
    destruct (column_count_assertion (plan table) (estate [] []) 0 _ Hinit)
      as [Hok _].
    { vm_compute. discriminate. }
    destruct (Hok ltac:(repeat constructor)
                [CallNext ForwardScanDirection; CallReScan;
                 CallNext ForwardScanDirection; CallNext ForwardScanDirection;
                 CallNext BackwardScanDirection]) as (outs & scanstate' & Hrun).
    exists scanstate, outs, scanstate'. split; [exact Hinit|exact Hrun].
  - destruct (ExecInitValuesScan_OK
                (plan [[IntConst 1]; [IntConst 2; IntConst 3]])
                (estate [] []) 0 ltac:(done)) as [scanstate Hinit].
    assert (Hreached : exists reached,
               scan_state [[IntConst 1]; [IntConst 2; IntConst 3]] [] []
                 [CallNext ForwardScanDirection] = OK reached)
      by (vm_compute; eexists; reflexivity).
    destruct Hreached as [reached Hreached].
    destruct (scan_state_run _ _ _ _ _ _ Hinit Hreached) as [outs Hrun].
    assert (Hc : scan_state [[IntConst 1]; [IntConst 2; IntConst 3]] [] []
                   [CallNext ForwardScanDirection]
                 ≫= (fun r => OK (curr_idx r)) = OK 0)
      by (vm_compute; reflexivity).
    rewrite Hreached in Hc. injection Hc as Hc.
    destruct (column_count_assertion _ (estate [] []) 0 _ Hinit) as [_ Hfail].
    { vm_compute. discriminate. }
    exists scanstate, outs, reached.
    split; [exact Hinit|]. split; [exact Hrun|].
    apply (Hfail _ _ _ ForwardScanDirection Hrun); rewrite Hc.
    + vm_compute. split; [discriminate|reflexivity].
    + vm_compute. discriminate.
Defined.

(** The cursor on the scenario table: -1 after Open, within [-1, 2] after
    two Next(Forward), and within [-1, 2] wherever a further Next moves it. *)
Lemma cursor_scenario :
  exists scanstate outs reached,
    ExecInitValuesScan (plan table) (estate [] []) 0 = OK scanstate
    /\ curr_idx scanstate = -1
    /\ run (replicate 2 (CallNext ForwardScanDirection)) scanstate
       = OK (outs, reached)
    /\ -1 <= curr_idx reached <= 2
    /\ array_len reached = 2
    /\ forall direction : ScanDirection,
        -1 <= Cursor_Advance direction 2 (curr_idx reached) <= 2.
Proof.
  destruct (ExecInitValuesScan_OK (plan table) (estate [] []) 0 ltac:(done))
    as [scanstate Hinit].
  assert (Hreached : exists reached,
             scan_state table [] [] (replicate 2 (CallNext ForwardScanDirection))
             = OK reached)
    by (vm_compute; eexists; reflexivity).
  destruct Hreached as [reached Hreached].
  destruct (scan_state_run _ _ _ _ _ _ Hinit Hreached) as [outs Hrun].
  destruct (cursor_stays_in_range (plan table) (estate [] []) 0 _ Hinit)
    as (Hfresh & _ & Hreach).
  { vm_compute. discriminate. }
  destruct (Hreach _ _ _ Hrun) as (Hrange & Hlen & Hstep).
  exists scanstate, outs, reached.
  split; [exact Hinit|]. split; [exact Hfresh|]. split; [exact Hrun|].
  rewrite Hlen in Hrange. split; [exact Hrange|]. split; [exact Hlen|].
  intros direction. destruct (Hstep direction) as (Hmoved & _).
  rewrite Hlen in Hmoved. exact Hmoved.
Defined.

(** * The further properties, on the concrete engine *)

(** Open on the scenario table: the array is the table. *)
Lemma builds_arrays_scenario :
  exists scanstate,
    ExecInitValuesScan (plan table) (estate [] []) 0 = OK scanstate
    /\ exprlists scanstate = table
    /\ array_len scanstate = 2
    /\ length (exprstatelists scanstate) = 2%nat
    /\ curr_idx scanstate = -1.
Proof.
  destruct (ExecInitValuesScan_OK (plan table) (estate [] []) 0 ltac:(done))
    as [scanstate Hinit].
  destruct (ExecInitValuesScan_builds_arrays _ _ _ _ Hinit)
    as (E1 & E2 & E3 & E4 & _).
  exists scanstate. split; [exact Hinit|]. split; [exact E1|].
  split; [exact E2|]. split; [exact E3|exact E4].
Defined.


(** After a forward scan over a table with a sub-plan in row 0, the state
    compiled at Open is still linked, still in per-query memory and not in
    the row scope. *)
Lemma compiled_states_scenario :
  exists scanstate outs reached st,
    ExecInitValuesScan (plan [[SubPlanRef 0]; [IntConst 3]])
      (estate [5%nat] [7]) 0 = OK scanstate
    /\ run (replicate 2 (CallNext ForwardScanDirection)) scanstate
       = OK (outs, reached)
    /\ exprstatelists reached !! 0%nat = Some [st]
    /\ xs_parent st = Some ThisPlanState
    /\ st ∈ es_query_cxt (state (ps (ss reached)))
    /\ st ∉ ecxt_per_tuple_memory (rowcontext reached).
Proof.
  destruct (ExecInitValuesScan_OK (plan [[SubPlanRef 0]; [IntConst 3]])
              (estate [5%nat] [7]) 0 ltac:(done)) as [scanstate Hinit].
  assert (Hreached : exists reached,
             scan_state [[SubPlanRef 0]; [IntConst 3]] [5%nat] [7]
               (replicate 2 (CallNext ForwardScanDirection)) = OK reached)
    by (vm_compute; eexists; reflexivity).
  destruct Hreached as [reached Hreached].
  destruct (scan_state_run _ _ _ _ _ _ Hinit Hreached) as [outs Hrun].
  assert (Hst : exists st,
             scan_state [[SubPlanRef 0]; [IntConst 3]] [5%nat] [7]
               (replicate 2 (CallNext ForwardScanDirection))
             ≫= (fun r => OK (exprstatelists r !! 0%nat)) = OK (Some [st]))
    by (vm_compute; eexists; reflexivity).
  destruct Hst as [st Hst]. rewrite Hreached in Hst. injection Hst as Hst.
  assert (Hint : list_length (values_lists (plan [[SubPlanRef 0]; [IntConst 3]]))
                 <= INT_MAX) by (vm_compute; discriminate).
  destruct (compiled_states_outlive_row_scope _ _ _ _ _ _ _ Hinit Hint Hrun
              0%nat [st] st Hst) as (E1 & E2 & E3).
  { apply list_elem_of_here. }
  exists scanstate, outs, reached, st.
  split; [exact Hinit|]. split; [exact Hrun|]. split; [exact Hst|].
  split; [exact E1|]. split; [exact E2|exact E3].
Defined.

(** After two Next(Forward) on the scenario table the row scope holds at
    most the two states of one row. *)
Lemma per_tuple_memory_scenario :
  exists scanstate outs reached,
    ExecInitValuesScan (plan table) (estate [] []) 0 = OK scanstate
    /\ run (replicate 2 (CallNext ForwardScanDirection)) scanstate
       = OK (outs, reached)
    /\ (length (ecxt_per_tuple_memory (rowcontext reached)) <= 2)%nat
    /\ Forall (fun st => xs_parent st = None)
         (ecxt_per_tuple_memory (rowcontext reached)).
Proof.
  destruct (ExecInitValuesScan_OK (plan table) (estate [] []) 0 ltac:(done))
    as [scanstate Hinit].
  assert (Hreached : exists reached,
             scan_state table [] [] (replicate 2 (CallNext ForwardScanDirection))
             = OK reached)
    by (vm_compute; eexists; reflexivity).
  destruct Hreached as [reached Hreached].
  destruct (scan_state_run _ _ _ _ _ _ Hinit Hreached) as [outs Hrun].
  assert (Hint : list_length (values_lists (plan table)) <= INT_MAX)
    by (vm_compute; discriminate).
  destruct (per_tuple_memory_holds_at_most_one_row _ _ _ _ _ _ _
              Hinit Hint Hrun) as (_ & E2 & E3).
  exists scanstate, outs, reached.
  split; [exact Hinit|]. split; [exact Hrun|]. split; [exact E2|exact E3].
Defined.

(** A forward call, a rescan and another forward call leave the driver's
    scope, the schema and the per-query memory of the scenario node alone. *)
Lemma driver_state_scenario :
  exists scanstate outs reached,
    ExecInitValuesScan (plan table) (estate [] []) 0 = OK scanstate
    /\ run [CallNext ForwardScanDirection; CallReScan;
            CallNext ForwardScanDirection] scanstate = OK (outs, reached)
    /\ ps_ExprContext (ps (ss reached)) = ps_ExprContext (ps (ss scanstate))
    /\ tts_tupleDescriptor (ss_ScanTupleSlot (ss reached))
       = tts_tupleDescriptor (ss_ScanTupleSlot (ss scanstate))
    /\ es_query_cxt (state (ps (ss reached)))
       = es_query_cxt (state (ps (ss scanstate))).
Proof.
  destruct (ExecInitValuesScan_OK (plan table) (estate [] []) 0 ltac:(done))
    as [scanstate Hinit].
  assert (Hreached : exists reached,
             scan_state table [] []
               [CallNext ForwardScanDirection; CallReScan;
                CallNext ForwardScanDirection] = OK reached)
    by (vm_compute; eexists; reflexivity).
  destruct Hreached as [reached Hreached].
  destruct (scan_state_run _ _ _ _ _ _ Hinit Hreached) as [outs Hrun].
  destruct (calls_leave_driver_state_alone _ _ _ _ Hrun)
    as (_ & _ & _ & E4 & E5 & _ & _ & _ & E9 & _).
  exists scanstate, outs, reached.
  split; [exact Hinit|]. split; [exact Hrun|]. split; [exact E4|].
  split; [exact E5|exact E9].
Defined.

(** On the scenario table with the cursor on row 0, Next(Forward) returns
    (4, "y") and the Next(Backward) after it returns (2, "x") again. *)
Lemma reversing_direction_scenario :
  exists scanstate outs reached back,
    ExecInitValuesScan (plan table) (estate [] []) 0 = OK scanstate
    /\ run [CallNext ForwardScanDirection] scanstate = OK (outs, reached)
    /\ run [CallNext ForwardScanDirection; CallNext BackwardScanDirection] reached
       = OK ([Some [(IntDatum 4, false); (TextDatum "y", false)];
              Some [(IntDatum 2, false); (TextDatum "x", false)]], back)
    /\ curr_idx back = 0.
Proof.
  destruct (ExecInitValuesScan_OK (plan table) (estate [] []) 0 ltac:(done))
    as [scanstate Hinit].
  assert (Hreached : exists reached,
             scan_state table [] [] [CallNext ForwardScanDirection] = OK reached)
    by (vm_compute; eexists; reflexivity).
  destruct Hreached as [reached Hreached].
  destruct (scan_state_run _ _ _ _ _ _ Hinit Hreached) as [outs Hrun].
  assert (Hc : scan_state table [] [] [CallNext ForwardScanDirection]
               ≫= (fun r => OK (curr_idx r)) = OK 0)
    by (vm_compute; reflexivity).
  rewrite Hreached in Hc. injection Hc as Hc.
  assert (Hint : list_length (values_lists (plan table)) <= INT_MAX)
    by (vm_compute; discriminate).
  destruct (reversing_direction_returns_to_the_row (plan table) (estate [] []) 0
              _ _ _ _ Hinit ltac:(repeat constructor) Hint Hrun) as [Hfb _].
  rewrite Hc in Hfb.
  destruct (Hfb ltac:(vm_compute; reflexivity)) as (back & Hback & Hcb).
  assert (E1 : row_at (values_lists (plan table))
                 (es_param_exec_vals (estate [] [])) (0 + 1)
               = Some [(IntDatum 4, false); (TextDatum "y", false)])
    by (vm_compute; reflexivity).
  assert (E0 : row_at (values_lists (plan table))
                 (es_param_exec_vals (estate [] [])) 0
               = Some [(IntDatum 2, false); (TextDatum "x", false)])
    by (vm_compute; reflexivity).
  rewrite E1, E0 in Hback.
  exists scanstate, outs, reached, back.
  split; [exact Hinit|]. split; [exact Hrun|]. split; [exact Hback|exact Hcb].
Defined.

(** A table whose second row is wider than the first: Open succeeds, the
    first Next(Forward) returns row 0, the second fails its assertion. *)
Lemma width_check_scenario :
  exists scanstate reached,
    ExecInitValuesScan (plan [[IntConst 1]; [IntConst 2; IntConst 3]])
      (estate [] []) 0 = OK scanstate
    /\ run (replicate 1 (CallNext ForwardScanDirection)) scanstate
       = OK ([Some [(IntDatum 1, false)]], reached)
    /\ run (replicate 2 (CallNext ForwardScanDirection)) scanstate
       = Fatal FailedAssertion.
Proof.
  destruct (width_is_checked_when_the_row_is_reached
              (plan [[IntConst 1]; [IntConst 2; IntConst 3]]) (estate [] []) 0 1)
    as (scanstate & Hinit & (reached & Hrun) & Hfail).
  - vm_compute. discriminate.
  - simpl. lia.
  - repeat constructor.
  - vm_compute. discriminate.
  - exists scanstate, reached.
    split; [exact Hinit|]. split; [exact Hrun|exact Hfail].
Defined.

(** The same table opened with and without sub-plan states, brought to row
    0 by two different histories: every further call sequence returns the
    same on both. *)
Lemma cursor_only_scenario :
  exists scanstate1 scanstate2 outs1 outs2 reached1 reached2,
    ExecInitValuesScan (plan [[SubPlanRef 0]; [IntConst 3]])
      (estate [5%nat] [7]) 0 = OK scanstate1
    /\ ExecInitValuesScan (plan [[SubPlanRef 0]; [IntConst 3]])
         (estate [] [7]) 0 = OK scanstate2
    /\ run [CallNext ForwardScanDirection; CallNext ForwardScanDirection;
            CallNext BackwardScanDirection] scanstate1 = OK (outs1, reached1)
    /\ run [CallNext ForwardScanDirection] scanstate2 = OK (outs2, reached2)
    /\ forall calls : list Call,
        outputs_of (run calls reached1) = outputs_of (run calls reached2).
Proof.
  destruct (ExecInitValuesScan_OK (plan [[SubPlanRef 0]; [IntConst 3]])
              (estate [5%nat] [7]) 0 ltac:(done)) as [scanstate1 Hinit1].
  destruct (ExecInitValuesScan_OK (plan [[SubPlanRef 0]; [IntConst 3]])
              (estate [] [7]) 0 ltac:(done)) as [scanstate2 Hinit2].
  assert (Hreached1 : exists reached,
             scan_state [[SubPlanRef 0]; [IntConst 3]] [5%nat] [7]
               [CallNext ForwardScanDirection; CallNext ForwardScanDirection;
                CallNext BackwardScanDirection] = OK reached)
    by (vm_compute; eexists; reflexivity).
  destruct Hreached1 as [reached1 Hreached1].
  destruct (scan_state_run _ _ _ _ _ _ Hinit1 Hreached1) as [outs1 Hrun1].
  assert (Hreached2 : exists reached,
             scan_state [[SubPlanRef 0]; [IntConst 3]] [] [7]
               [CallNext ForwardScanDirection] = OK reached)
    by (vm_compute; eexists; reflexivity).
  destruct Hreached2 as [reached2 Hreached2].
  destruct (scan_state_run _ _ _ _ _ _ Hinit2 Hreached2) as [outs2 Hrun2].
  assert (Hc1 : scan_state [[SubPlanRef 0]; [IntConst 3]] [5%nat] [7]
                  [CallNext ForwardScanDirection; CallNext ForwardScanDirection;
                   CallNext BackwardScanDirection]
                ≫= (fun r => OK (curr_idx r)) = OK 0)
    by (vm_compute; reflexivity).
  rewrite Hreached1 in Hc1. injection Hc1 as Hc1.
  assert (Hc2 : scan_state [[SubPlanRef 0]; [IntConst 3]] [] [7]
                  [CallNext ForwardScanDirection]
                ≫= (fun r => OK (curr_idx r)) = OK 0)
    by (vm_compute; reflexivity).
  rewrite Hreached2 in Hc2. injection Hc2 as Hc2.
  assert (Hint : list_length (values_lists (plan [[SubPlanRef 0]; [IntConst 3]]))
                 <= INT_MAX) by (vm_compute; discriminate).
  pose proof (outputs_depend_on_cursor_only _ _ _ _ _ _ _ _ _ _ _ _ _
                Hinit1 Hinit2 eq_refl Hint Hrun1 Hrun2
                (eq_trans Hc1 (eq_sym Hc2))) as Hsame.
  exists scanstate1, scanstate2, outs1, outs2, reached1, reached2.
  split; [exact Hinit1|]. split; [exact Hinit2|]. split; [exact Hrun1|].
  split; [exact Hrun2|exact Hsame].
Defined.

(** A rescan right after Open on the scenario table returns the node as it
    is. *)
Lemma rescan_fresh_scenario :
  exists scanstate,
    ExecInitValuesScan (plan table) (estate [] []) 0 = OK scanstate
    /\ ExecReScanValuesScan scanstate = scanstate.
Proof.
  destruct (ExecInitValuesScan_OK (plan table) (estate [] []) 0 ltac:(done))
    as [scanstate Hinit].
  destruct (rescan_of_fresh_node_is_identity _ _ _ _ Hinit) as [E _].
  exists scanstate. split; [exact Hinit|exact E].
Defined.

(** Every row handed out by three Next(Forward) on the scenario table has
    two columns, and the slot arrays have length two. *)
Lemma schema_width_scenario :
  exists scanstate outs reached,
    ExecInitValuesScan (plan table) (estate [] []) 0 = OK scanstate
    /\ run (replicate 3 (CallNext ForwardScanDirection)) scanstate
       = OK (outs, reached)
    /\ Forall (fun out => forall row, out = Some row -> length row = 2%nat) outs
    /\ length (tts_values (ss_ScanTupleSlot (ss reached))) = 2%nat.
Proof.
  destruct (ExecInitValuesScan_OK (plan table) (estate [] []) 0 ltac:(done))
    as [scanstate Hinit].
  assert (Hreached : exists reached,
             scan_state table [] [] (replicate 3 (CallNext ForwardScanDirection))
             = OK reached)
    by (vm_compute; eexists; reflexivity).
  destruct Hreached as [reached Hreached].
  destruct (scan_state_run _ _ _ _ _ _ Hinit Hreached) as [outs Hrun].
  assert (Hint : list_length (values_lists (plan table)) <= INT_MAX)
    by (vm_compute; discriminate).
  destruct (rows_handed_out_have_the_schema_width _ _ _ _ _ _ _
              Hinit Hint Hrun) as (E1 & E2 & _).
  exists scanstate, outs, reached.
  split; [exact Hinit|]. split; [exact Hrun|]. split; [exact E1|exact E2].
Defined.
